(** * Bank_Account_Analyser: the ingestion-to-retrieval pipeline

    A shallow embedding of [chunking.py], [embeddings_index.py], [app.py]
    ([ingest_files]) and the merge handler of [streamlit_app.py], with the
    properties of the specification stated over it.

    Conventions.
    - A Python [str] is a [list ascii]; a character is a code point below
      256, so the whitespace class of [str.strip], [str.split] and of the
      regular expression [\s] is the set 9-13, 28-32, 133, 160.
    - A Python [int] is a [Z].
    - [int(n * 1.3)] and [int(n / 1.3)] on a non-negative [int] are written
      [13 * n / 10] and [10 * n / 13]: the double nearest to 1.3 is off by
      less than half a unit in the last place of either result, so the
      truncations agree.
    - An exception is a value of [error]; a method that mutates [self]
      returns its outcome together with the state it leaves behind. *)

From Stdlib Require Import ZArith List Ascii String Lia Bool QArith.
From Stdlib Require Import DecimalString.
From stdpp Require Import gmap strings list sorting.

Import ListNotations.
Open Scope Z_scope.

Abbreviation text := (list ascii).

(** A string literal as a Python [str]. *)
Definition T (s : string) : text := list_ascii_of_string s.

(* ===================================================================== *)
(** ** Python string primitives *)
(* ===================================================================== *)

Module Py.

(** [str.isspace] on one character. *)
Definition isspace (c : ascii) : bool :=
  let n := N_of_ascii c in
  ((9 <=? n) && (n <=? 13) || (28 <=? n) && (n <=? 32)
   || (n =? 133) || (n =? 160))%N.

Fixpoint lstrip (s : text) : text :=
  match s with
  | [] => []
  | c :: s' => if isspace c then lstrip s' else s
  end.

Fixpoint rstrip (s : text) : text :=
  match s with
  | [] => []
  | c :: s' =>
      match rstrip s' with
      | [] => if isspace c then [] else [c]
      | r => c :: r
      end
  end.

(** [s.strip()] *)
Definition strip (s : text) : text := rstrip (lstrip s).

(** The scan behind [s.split()]: [acc] is the word being read, reversed. *)
Fixpoint split_ws (acc : text) (s : text) : list text :=
  match s with
  | [] => match acc with [] => [] | _ => [rev acc] end
  | c :: s' =>
      if isspace c
      then match acc with
           | [] => split_ws [] s'
           | _ => rev acc :: split_ws [] s'
           end
      else split_ws (c :: acc) s'
  end.

(** [s.split()] *)
Definition split (s : text) : list text := split_ws [] s.

(** [sep.join(l)] *)
Fixpoint join (sep : text) (l : list text) : text :=
  match l with
  | [] => []
  | [x] => x
  | x :: l' => x ++ sep ++ join sep l'
  end.

(** [bool(s)] of a string or a list: non-empty. *)
Definition truthy {A} (l : list A) : bool :=
  match l with [] => false | _ => true end.

(** [str(n)] of an [int], as an f-string prints it. *)
Definition str_of_int (n : Z) : text :=
  list_ascii_of_string (NilZero.string_of_int (Z.to_int n)).

End Py.

(* ===================================================================== *)
(** ** chunking.py *)
(* ===================================================================== *)

Module Chunking.

Definition sp : text := T " ".

(** The class [[\.\?\!]] of [_SENT_SPLIT_RE]. *)
Definition is_terminator (c : ascii) : bool :=
  let n := N_of_ascii c in ((n =? 46) || (n =? 63) || (n =? 33))%N.

(** [_SENT_SPLIT_RE.split(text)] for [(?<=[\.\?\!])\s+]: a separator is a
    maximal whitespace run that directly follows a terminator.  [acc] is
    the field being read (reversed), [prev_term] tells whether the previous
    character is a terminator, [in_sep] whether a separator is being
    consumed. *)
Fixpoint sent_split (acc : text) (prev_term in_sep : bool) (s : text)
  : list text :=
  match s with
  | [] => [rev acc]
  | c :: s' =>
      if Py.isspace c then
        if in_sep then sent_split acc false true s'
        else if prev_term then rev acc :: sent_split [] false true s'
        else sent_split (c :: acc) false false s'
      else sent_split (c :: acc) (is_terminator c) false s'
  end.

Definition re_split (s : text) : list text := sent_split [] false false s.

Definition split_into_sentences (page : text) : list text :=
  let t := Py.strip page in
  if Py.truthy t
  then filter (fun s => Py.truthy s) (map Py.strip (re_split t))
  else [].

(** The fallback heuristic of [tokens_length]. *)
Definition fallback_tokens (t : text) : Z :=
  Z.max 1 (13 * Z.of_nat (length (Py.split t)) / 10).

(** [tiktoken] is [Some enc] when the import succeeded
    ([TIKTOKEN_AVAILABLE]); [enc name t] is
    [len(tiktoken.get_encoding(name).encode(t))]. *)
Definition tokenizer := option (text -> text -> Z).

Definition tokens_length (tk : tokenizer) (t : text) (encoder_name : text)
  : Z :=
  match tk with
  | Some enc => enc encoder_name t
  | None => fallback_tokens t
  end.

Section Chunker.

Variable tk : tokenizer.
Variable max_tokens : Z.
Variable encoder_name : text.

Local Abbreviation tokens t := (tokens_length tk t encoder_name).

(** The locals [chunks], [cur], [cur_tokens] of
    [chunk_sentences_to_chunks]. *)
Record buffer := Buffer {
  chunks : list text;
  cur : list text;
  cur_tokens : Z
}.

Definition flush (b : buffer) : buffer :=
  {| chunks := if Py.truthy (cur b)
               then chunks b ++ [Py.strip (Py.join sp (cur b))]
               else chunks b;
     cur := [];
     cur_tokens := 0 |}.

(** The loop [for w in words] over an over-long sentence. *)
Fixpoint split_words (ws : list text) (out : list text)
    (piece : list text) (piece_tokens : Z) : list text * list text * Z :=
  match ws with
  | [] => (out, piece, piece_tokens)
  | w :: ws' =>
      let w_tokens := tokens (w ++ sp) in
      if piece_tokens + w_tokens >? max_tokens
      then split_words ws' (out ++ [Py.strip (Py.join sp piece)]) [w] w_tokens
      else split_words ws' out (piece ++ [w]) (piece_tokens + w_tokens)
  end.

(** One iteration of [for sent in sentences]. *)
Definition pack_sentence (b : buffer) (sent : text) : buffer :=
  let sent_tokens := tokens sent in
  if sent_tokens >? max_tokens then
    let '(out, piece, piece_tokens) :=
      split_words (Py.split sent) (chunks b) [] 0 in
    let b1 := {| chunks := out; cur := cur b; cur_tokens := cur_tokens b |} in
    if Py.truthy piece then
      if cur_tokens b1 + piece_tokens <=? max_tokens
      then {| chunks := chunks b1;
              cur := cur b1 ++ [Py.join sp piece];
              cur_tokens := cur_tokens b1 + piece_tokens |}
      else let b2 := flush b1 in
           {| chunks := chunks b2;
              cur := cur b2 ++ [Py.join sp piece];
              cur_tokens := piece_tokens |}
    else b1
  else if cur_tokens b + sent_tokens <=? max_tokens
  then {| chunks := chunks b;
          cur := cur b ++ [sent];
          cur_tokens := cur_tokens b + sent_tokens |}
  else let b2 := flush b in
       {| chunks := chunks b2;
          cur := cur b2 ++ [sent];
          cur_tokens := sent_tokens |}.

(** The chunks before the overlap pass (lines 35-81). *)
Definition pack (sentences : list text) : list text :=
  chunks (flush (fold_left pack_sentence sentences (Buffer [] [] 0))).

(** [max(1, int(overlap_tokens / 1.3))] *)
Definition approx_words (overlap_tokens : Z) : nat :=
  Z.to_nat (Z.max 1 (10 * overlap_tokens / 13)).

(** [ws[-n:] if len(ws) >= n else ws], for [n >= 1]. *)
Definition last_words (n : nat) (ws : list text) : list text :=
  if (n <=? length ws)%nat then drop (length ws - n) ws else ws.

(** The loop [for i in range(1, len(chunks))]; [overlapped] is never
    empty, so [overlapped[-1]] is [List.last overlapped []]. *)
Fixpoint overlap_loop (overlap_tokens : Z) (overlapped rest : list text)
  : list text :=
  match rest with
  | [] => overlapped
  | c :: rest' =>
      let prev := List.last overlapped [] in
      let prev_words := Py.split prev in
      let overlap_words := last_words (approx_words overlap_tokens) prev_words in
      let new_chunk := Py.join sp (overlap_words ++ Py.split c) in
      overlap_loop overlap_tokens (overlapped ++ [new_chunk]) rest'
  end.

Definition add_overlap (overlap_tokens : Z) (cs : list text) : list text :=
  if (overlap_tokens >? 0) && (1 <? length cs)%nat
  then match cs with
       | [] => cs
       | c0 :: rest => overlap_loop overlap_tokens [c0] rest
       end
  else cs.

Definition chunk_sentences_to_chunks (sentences : list text)
    (overlap_tokens : Z) : list text :=
  if Py.truthy sentences
  then add_overlap overlap_tokens (pack sentences)
  else [].

Record passage := Passage {
  source : text;
  page : Z;
  chunk_index : Z;
  ptext : text;
  label : text
}.

(** The f-string of [chunk_page_text]. *)
Definition make_label (src : text) (page_no i : Z) (c : text) : text :=
  T "(source:" ++ src ++ T " page:" ++ Py.str_of_int page_no
    ++ T " chunk:" ++ Py.str_of_int i ++ T ")" ++ ["010"%char] ++ c.

(** [enumerate(chunks, start)] mapped to passages. *)
Fixpoint number_chunks (src : text) (page_no : Z) (i : Z) (cs : list text)
  : list passage :=
  match cs with
  | [] => []
  | c :: cs' =>
      Passage src page_no i c (make_label src page_no i c)
        :: number_chunks src page_no (i + 1) cs'
  end.

Definition chunk_page_text (page_text src : text) (page_no : Z)
    (overlap_tokens : Z) : list passage :=
  let sentences := split_into_sentences page_text in
  let cs := chunk_sentences_to_chunks sentences overlap_tokens in
  number_chunks src page_no 1 cs.

End Chunker.

End Chunking.

(* ===================================================================== *)
(** ** Exceptions *)
(* ===================================================================== *)

(** The exceptions the repository raises itself carry their message; an
    exception raised inside a library call is a [LibraryError] naming the
    call. *)
Inductive error :=
| ValueError (msg : string)
| RuntimeError (msg : string)
| FileNotFoundError (msg : string)
| IndexError
| LibraryError (call : string).

Definition result (A : Type) : Type := error + A.

Definition ok {A} (a : A) : result A := inr a.
Definition raise {A} (e : error) : result A := inl e.

(** A library call that may raise. *)
Definition call {A} (name : string) (r : option A) : result A :=
  match r with
  | Some a => ok a
  | None => raise (LibraryError name)
  end.

Definition bind {A B} (r : result A) (k : A -> result B) : result B :=
  match r with
  | inl e => inl e
  | inr a => k a
  end.

Notation "'do' x <- r ; k" := (bind r (fun x => k))
  (at level 10, x name, r at level 100, k at level 200).

(* ===================================================================== *)
(** ** embeddings_index.py *)
(* ===================================================================== *)

Module VectorIndex.

(** The encoder and the nearest-neighbour library, as the class uses them.
    [None] is a raised exception. *)
Class Backend := {
  vec : Type;
  ann : Type;
  (** [SentenceTransformer(model).encode(texts, convert_to_numpy=True)] *)
  encode : text -> list text -> option (list vec);
  (** [embedder.get_sentence_embedding_dimension()] *)
  dimension : text -> Z;
  (** [faiss.normalize_L2], which works in place *)
  normalize_L2 : list vec -> list vec;
  (** [faiss.IndexFlatIP(dim)] *)
  IndexFlatIP : Z -> ann;
  (** [index.add(vectors)] *)
  add : ann -> list vec -> option ann;
  (** [index.search(q_vec, k)]: the rows [I[0]] and [D[0]] *)
  search : ann -> list vec -> Z -> option (list Z * list Q);
  (** whether a file can be created at a path *)
  writable : text -> bool
}.

Section Index.

Context {B : Backend}.

(** What a path holds: an index written by [faiss.write_index], a JSON
    list of strings, or content that neither reader accepts, so content
    that does not parse as JSON either.  A file holding a JSON document of
    another shape, which [json.load] returns and [load] stores as it is,
    has no value in this type: the passages files covered are those whose
    document is a list of strings and those that do not parse. *)
Inductive file :=
| IndexFile (a : ann)
| JsonFile (v : list text)
| OtherFile.

(** [faiss.read_index] *)
Definition read_index (f : file) : option ann :=
  match f with IndexFile a => Some a | _ => None end.

(** [json.load] *)
Definition json_load (f : file) : option (list text) :=
  match f with JsonFile v => Some v | _ => None end.

(** The attributes [model_name], [index], [passages] of an
    [EmbeddingsIndex]; [embedder] and [dim] are functions of
    [model_name]. *)
Record t := Make {
  model_name : text;
  index : option ann;
  passages : list text
}.

Definition set_index (a : ann) (s : t) : t :=
  {| model_name := model_name s; index := Some a; passages := passages s |}.

Definition set_passages (ps : list text) (s : t) : t :=
  {| model_name := model_name s; index := index s; passages := ps |}.

(** [EmbeddingsIndex(model_name)] *)
Definition init (model : text) : t :=
  {| model_name := model; index := None; passages := [] |}.

Definition default_model : text := T "all-MiniLM-L6-v2".

(** [build]: the outcome and the object as the call leaves it. *)
Definition build (s : t) (ps : list text) : result unit * t :=
  if negb (Py.truthy ps) then (raise (ValueError "No passages to index."), s)
  else
    let s1 := set_passages ps s in
    match encode (model_name s) ps with
    | None => (raise (LibraryError "encode"), s1)
    | Some vectors =>
        let vectors := normalize_L2 vectors in
        let empty := IndexFlatIP (dimension (model_name s)) in
        let s2 := set_index empty s1 in
        match add empty vectors with
        | None => (raise (LibraryError "add"), s2)
        | Some a => (ok tt, set_index a s2)
        end
    end.

(** [save]: the outcome and the files as the call leaves them. *)
Definition save (fs : gmap text file) (s : t) (index_path passages_path : text)
  : result unit * gmap text file :=
  match index s with
  | None => (raise (RuntimeError "Index not built."), fs)
  | Some a =>
      if negb (writable index_path)
      then (raise (LibraryError "write_index"), fs)
      else
        let fs1 := <[index_path := IndexFile a]> fs in
        if negb (writable passages_path)
        then (raise (LibraryError "open"), fs1)
        else (ok tt, <[passages_path := JsonFile (passages s)]> fs1)
  end.

(** [os.path.exists] *)
Definition path_exists (fs : gmap text file) (p : text) : bool :=
  match fs !! p with Some _ => true | None => false end.

Definition load (fs : gmap text file) (s : t) (index_path passages_path : text)
  : result unit * t :=
  if negb (path_exists fs index_path) || negb (path_exists fs passages_path)
  then (raise (FileNotFoundError "Index or passages file not found."), s)
  else
    match fs !! index_path ≫= read_index with
    | None => (raise (LibraryError "read_index"), s)
    | Some a =>
        let s1 := set_index a s in
        match fs !! passages_path ≫= json_load with
        | None => (raise (LibraryError "json.load"), s1)
        | Some v => (ok tt, set_passages v s1)
        end
    end.

(** One entry of the list [query] returns. *)
Record hit := Hit {
  id : Z;
  score : Q;
  passage : text
}.

(** The loop over [zip(I[0], D[0])]. *)
Fixpoint collect (ps : list text) (pairs : list (Z * Q)) : list hit :=
  match pairs with
  | [] => []
  | (idx, sc) :: pairs' =>
      if (idx <? 0) || (idx >=? Z.of_nat (length ps))
      then collect ps pairs'
      else Hit idx sc (nth (Z.to_nat idx) ps []) :: collect ps pairs'
  end.

Definition query (s : t) (q : text) (top_k : Z) : result (list hit) :=
  match index s with
  | None => raise (RuntimeError "Index not built/loaded.")
  | Some a =>
      do q_vec <- call "encode" (encode (model_name s) [q]);
      let q_vec := normalize_L2 q_vec in
      do found <- call "search" (search a q_vec top_k);
      let '(I0, D0) := found in
      ok (collect (passages s) (combine I0 D0))
  end.

(** A session: the files and one index object, driven by method calls. *)
Inductive op :=
| CallBuild (ps : list text)
| CallSave (index_path passages_path : text)
| CallLoad (index_path passages_path : text)
| CallQuery (q : text) (top_k : Z).

Definition step (st : gmap text file * t) (o : op) : gmap text file * t :=
  let '(fs, s) := st in
  match o with
  | CallBuild ps => (fs, snd (build s ps))
  | CallSave ip pp => (snd (save fs s ip pp), s)
  | CallLoad ip pp => (fs, snd (load fs s ip pp))
  | CallQuery q k => (fs, s)
  end.

Definition run (ops : list op) (st : gmap text file * t)
  : gmap text file * t :=
  fold_left step ops st.

(** Whether a call gets as far as assigning [self.index]: a [build] whose
    input is not empty and whose encoding succeeds, a [load] that finds
    both paths and reads the index file. *)
Definition assigns_index (st : gmap text file * t) (o : op) : bool :=
  let '(fs, s) := st in
  match o with
  | CallBuild ps => Py.truthy ps && bool_decide (is_Some (encode (model_name s) ps))
  | CallLoad ip pp =>
      path_exists fs ip && path_exists fs pp
      && bool_decide (is_Some (fs !! ip ≫= read_index))
  | _ => false
  end.

Fixpoint some_assigns_index (ops : list op) (st : gmap text file * t) : bool :=
  match ops with
  | [] => false
  | o :: ops' => assigns_index st o || some_assigns_index ops' (step st o)
  end.

End Index.

End VectorIndex.

(* ===================================================================== *)
(** ** streamlit_app.py: the upload handler *)
(* ===================================================================== *)

Module Merge.

Import VectorIndex.

(** Lines 165-171: [seen] is a set, [deduped] the list built so far. *)
Fixpoint dedupe_loop (seen : gset text) (deduped : list text)
    (combined : list text) : list text :=
  match combined with
  | [] => deduped
  | p :: rest =>
      if decide (p ∈ seen)
      then dedupe_loop seen deduped rest
      else dedupe_loop ({[p]} ∪ seen) (deduped ++ [p]) rest
  end.

Definition dedupe (combined : list text) : list text :=
  dedupe_loop ∅ [] combined.

(** Exact-match deduplication as the specification words it: keep the
    first occurrence of every text, drop the later ones. *)
Fixpoint keep_first (l : list text) : list text :=
  match l with
  | [] => []
  | p :: rest => p :: filter (fun x => x ≠ p) (keep_first rest)
  end.

Section Handler.

Context {B : Backend}.

(** The keys [emb], [index_built], [num_passages] of
    [st.session_state]. *)
Record session := Session {
  emb : option t;
  index_built : bool;
  num_passages : nat
}.

(** Line 162 and the loop after it. *)
Definition merge_passages (emb_existing emb_uploaded : t) : list text :=
  let combined_passages := passages emb_existing ++ passages emb_uploaded in
  dedupe combined_passages.

(** Lines 141-187, after [emb_uploaded] has been loaded, with the autosave
    box at its default (unticked). *)
Definition upload_index (ss : session) (emb_uploaded : t) : session :=
  let uploaded_count := length (passages emb_uploaded) in
  let use_uploaded := Session (Some emb_uploaded) true uploaded_count in
  match emb ss with
  | None => use_uploaded
  | Some emb_existing =>
      if (length (passages emb_existing) =? 0)%nat then use_uploaded
      else
        let deduped_passages := merge_passages emb_existing emb_uploaded in
        let new_emb := init (model_name emb_existing) in
        match build new_emb deduped_passages with
        | (inl _, _) => ss
        | (inr _, new_emb) =>
            Session (Some new_emb) true (length (passages new_emb))
        end
  end.

End Handler.

End Merge.

(* ===================================================================== *)
(** ** pdf_utils.py, ocr_utils.py and app.py: ingestion *)
(* ===================================================================== *)

Module Ingest.

Import Chunking.

(** The file system, the PDF libraries and the OCR engine.  [None] is a
    raised exception. *)
Class World := {
  image : Type;
  (** [os.path.abspath] *)
  abspath : text -> text;
  (** [os.path.exists] *)
  file_exists : text -> bool;
  PYMUPDF_AVAILABLE : bool;
  PDF2IMAGE_AVAILABLE : bool;
  (** [fitz.open(path)] and [page.get_text()] of every page *)
  fitz_texts : text -> option (list text);
  (** [pdf2image.convert_from_path(path, dpi=200)] *)
  convert_from_path : text -> option (list image);
  (** [PIL.Image.open] *)
  image_open : text -> option image;
  (** [ocr_utils.image_to_text]: preprocessing and [pytesseract] *)
  image_to_text : image -> option text;
  (** the tokenizer [chunking.py] imported, if any *)
  tiktoken : tokenizer
}.

(** [os.path.basename] (POSIX): what follows the last slash. *)
Fixpoint basename_aux (acc : text) (p : text) : text :=
  match p with
  | [] => rev acc
  | c :: p' =>
      if Ascii.eqb c "/" then basename_aux [] p' else basename_aux (c :: acc) p'
  end.

Definition basename (p : text) : text := basename_aux [] p.

(** [os.path.splitext(name)[1]] for a name without slash: from the last
    dot on, unless only dots come before it. *)
Fixpoint last_dot (ext_rev : text) (name_rev : text) : text :=
  match name_rev with
  | [] => []
  | c :: before_rev =>
      if Ascii.eqb c "."
      then if forallb (fun d => Ascii.eqb d ".") before_rev
           then []
           else "."%char :: ext_rev
      else last_dot (c :: ext_rev) before_rev
  end.

Definition splitext_ext (name : text) : text := last_dot [] (rev name).

(** [str.lower] on code points below 256. *)
Definition lower_char (c : ascii) : ascii :=
  let n := N_of_ascii c in
  if ((65 <=? n) && (n <=? 90)
      || (192 <=? n) && (n <=? 222) && negb (n =? 215))%N
  then ascii_of_N (n + 32)
  else c.

Definition lower (s : text) : text := map lower_char s.

Section Pipeline.

Context {W : World}.

(** [enumerate(l, start=i)] *)
Fixpoint enumerate {A} (i : Z) (l : list A) : list (Z * A) :=
  match l with
  | [] => []
  | x :: l' => (i, x) :: enumerate (i + 1) l'
  end.

Definition pdf_selectable_text (pdf_path : text) : result (list (Z * text)) :=
  if negb PYMUPDF_AVAILABLE then ok []
  else
    do texts <- call "fitz" (fitz_texts pdf_path);
    ok (enumerate 1 (map Py.strip texts)).

Definition pdf_to_images (pdf_path : text) : result (list image) :=
  if negb PDF2IMAGE_AVAILABLE
  then raise (RuntimeError "pdf2image not installed. pip install pdf2image and ensure poppler is available.")
  else call "convert_from_path" (convert_from_path pdf_path).

Definition pdf_pages_text (pdf_path : text) (use_selectable_first : bool)
  : result (list (Z * text)) :=
  let fallback :=
    do imgs <- pdf_to_images pdf_path;
    ok (map (fun p => (fst p, [])) (enumerate 1 imgs)) in
  if use_selectable_first then
    do sel <- pdf_selectable_text pdf_path;
    if Py.truthy sel then ok sel else fallback
  else fallback.

Section Ingest.

Variable use_selectable_text : bool.
Variable max_tokens_per_chunk overlap_tokens : Z.

Definition chunk (txt name : text) (page_no : Z) : list passage :=
  chunk_page_text tiktoken max_tokens_per_chunk (T "gpt2") txt name page_no
    overlap_tokens.

(** The loop [for page_no, txt in pages] of one PDF; [images] is the
    lazily filled cache. *)
Fixpoint ingest_pages (p name : text) (images : option (list image))
    (pages : list (Z * text)) (chunks_meta : list passage)
  : result (list passage) :=
  match pages with
  | [] => ok chunks_meta
  | (page_no, txt) :: pages' =>
      if Py.truthy txt && Py.truthy (Py.strip txt)
      then ingest_pages p name images pages'
             (chunks_meta ++ chunk txt name page_no)
      else
        do images <- match images with
                     | None => pdf_to_images p
                     | Some imgs => ok imgs
                     end;
        do img <- match nth_error images (Z.to_nat (page_no - 1)) with
                  | Some img => ok img
                  | None => raise IndexError
                  end;
        do ocr_text <- call "image_to_text" (image_to_text img);
        ingest_pages p name (Some images) pages'
          (chunks_meta ++ chunk ocr_text name page_no)
  end.

Definition warn_not_found (p : text) : text :=
  T "[WARN] " ++ p ++ T " not found, skipping.".

(** The loop [for p in paths]: what has been printed, and the list
    returned or the exception that ended the call. *)
Fixpoint ingest_loop (paths : list text) (printed : list text)
    (chunks_meta : list passage) : list text * result (list passage) :=
  match paths with
  | [] => (printed, ok chunks_meta)
  | p :: paths' =>
      let p := abspath p in
      if negb (file_exists p)
      then ingest_loop paths' (printed ++ [warn_not_found p]) chunks_meta
      else
        let name := basename p in
        let ext := lower (splitext_ext name) in
        let one :=
          if bool_decide (ext = T ".pdf") then
            do pages <- pdf_pages_text p use_selectable_text;
            ingest_pages p name None pages chunks_meta
          else
            do img <- call "Image.open" (image_open p);
            do txt <- call "image_to_text" (image_to_text img);
            ok (chunks_meta ++ chunk txt name 1) in
        match one with
        | inl e => (printed, inl e)
        | inr chunks_meta => ingest_loop paths' printed chunks_meta
        end
  end.

Definition ingest_files (paths : list text) : list text * result (list passage) :=
  ingest_loop paths [] [].

End Ingest.

End Pipeline.

End Ingest.

(* ===================================================================== *)
(** ** Vocabulary of the properties *)
(* ===================================================================== *)

Import Chunking.

(** No terminator of [s] is directly followed by whitespace. *)
Definition unbroken (s : text) : Prop :=
  ∀ pre c d post, s = pre ++ c :: d :: post →
    is_terminator c = true → Py.isspace d = false.

(** The chunk the overlap pass writes after [prev] for the packed chunk
    [c]. *)
Definition overlapped_chunk (ov : Z) (prev c : text) : text :=
  Py.join sp (last_words (approx_words ov) (Py.split prev) ++ Py.split c).

(** The overlap pass with the previous output threaded through. *)
Fixpoint overlap_from (ov : Z) (prev : text) (rest : list text) : list text :=
  match rest with
  | [] => []
  | c :: rest' =>
      let n := overlapped_chunk ov prev c in n :: overlap_from ov n rest'
  end.

(** A part of a chunk: a sentence kept whole, or a run of words of an
    over-long sentence. *)
Inductive part :=
| Whole (s : text)
| Piece (ws : list text).

Definition part_text (p : part) : text :=
  match p with
  | Whole s => s
  | Piece ws => Py.join sp ws
  end.

Definition zsum (l : list Z) : Z := foldr Z.add 0 l.

Module Budget.

Section Defs.

Variable tk : tokenizer.
Variable max_tokens : Z.
Variable encoder_name : text.
Variable sentences : list text.

Local Abbreviation tokens t := (tokens_length tk t encoder_name).
Local Abbreviation word_tokens :=
  (λ w : text, tokens_length tk (w ++ sp) encoder_name).

(** What the packing loop counts for a part. *)
Definition part_tokens (p : part) : Z :=
  match p with
  | Whole s => tokens s
  | Piece ws => zsum (map word_tokens ws)
  end.

(** The part comes from the input: a whole sentence that fits, or a run
    of consecutive words of an over-long sentence, in the sentence's
    order. *)
Definition part_of_input (p : part) : Prop :=
  match p with
  | Whole s => s ∈ sentences ∧ tokens s ≤ max_tokens
  | Piece ws =>
      ws ≠ [] ∧ ∃ s, s ∈ sentences ∧ tokens s > max_tokens
                     ∧ ∃ before after, Py.split s = before ++ ws ++ after
  end.

(** A chunk is the trimmed space-join of parts of the input whose counted
    tokens add up to at most [max_tokens]. *)
Definition within_budget (c : text) : Prop :=
  ∃ ps, ps ≠ []
        ∧ Forall part_of_input ps
        ∧ c = Py.strip (Py.join sp (map part_text ps))
        ∧ zsum (map part_tokens ps) ≤ max_tokens.

(** The invariant of the sentence loop. *)
Definition buffer_ok (b : buffer) : Prop :=
  Forall within_budget (chunks b)
  ∧ ∃ ps, cur b = map part_text ps
          ∧ Forall part_of_input ps
          ∧ cur_tokens b = zsum (map part_tokens ps)
          ∧ (ps ≠ [] → cur_tokens b ≤ max_tokens).

End Defs.

End Budget.

(* ===================================================================== *)
(** ** A small backend to run the index on *)
(* ===================================================================== *)

Module Toy.

Import VectorIndex.

(** One-dimensional embeddings: a text is embedded as its length, and the
    encoder refuses a text of more than 24 characters.  The score of a
    stored vector against the query is [1 / (1 + distance)]. *)
Definition toy_encode (model : text) (ps : list text) : option (list Z) :=
  if forallb (λ p, (length p <=? 24)%nat) ps
  then Some (map (λ p, Z.of_nat (length p)) ps)
  else None.

Definition toy_score (q v : Z) : Q := 1 # Z.to_pos (1 + Z.abs (v - q)).

Fixpoint insert_by_score (x : Z * Q) (l : list (Z * Q)) : list (Z * Q) :=
  match l with
  | [] => [x]
  | y :: l' =>
      if Qle_bool (snd x) (snd y) then y :: insert_by_score x l' else x :: l
  end.

Definition sort_by_score (l : list (Z * Q)) : list (Z * Q) :=
  foldr insert_by_score [] l.

(** Exact search, best first; a row shorter than [k] is padded with id
    [-1], as the library does. *)
Definition toy_search (a : list Z) (q_vec : list Z) (k : Z)
  : option (list Z * list Q) :=
  match q_vec with
  | [q] =>
      if k <=? 0 then None
      else
        let scored := imap (λ i v, (Z.of_nat i, toy_score q v)) a in
        let best := take (Z.to_nat k) (sort_by_score scored) in
        let pad := replicate (Z.to_nat k - length best) (-1, ((-1000000) # 1)%Q) in
        Some (map fst (best ++ pad), map snd (best ++ pad))
  | _ => None
  end.

Definition backend : Backend := {|
  vec := Z;
  ann := list Z;
  encode := toy_encode;
  dimension := λ _, 1;
  normalize_L2 := λ v, v;
  IndexFlatIP := λ _, [];
  add := λ a vs, Some (a ++ vs);
  search := toy_search;
  writable := λ p, negb (bool_decide (p = []))
|}.

(** An index built from three labels. *)
Definition three : t (B := backend) :=
  snd (build (B := backend) (init default_model)
         [T "opening balance"; T "fees"; T "closing balance 500"]).

End Toy.

(* ===================================================================== *)
(** ** A backend that scores in single precision *)
(* ===================================================================== *)

Module Rounded.

Import VectorIndex.

(** The inner product of a normalised single-precision vector with itself
    is not always exactly 1: [1 + 2^-23], the next number after 1, is one
    of the values the library returns for it.  Here the score of a stored
    vector equal to the query is that number; every other score is as in
    [Toy]. *)
Definition rounded_score (q v : Z) : Q :=
  if v =? q then 8388609 # 8388608 else Toy.toy_score q v.

Definition rounded_search (a : list Z) (q_vec : list Z) (k : Z)
  : option (list Z * list Q) :=
  match q_vec with
  | [q] =>
      if k <=? 0 then None
      else
        let scored := imap (λ i v, (Z.of_nat i, rounded_score q v)) a in
        let best := take (Z.to_nat k) (Toy.sort_by_score scored) in
        let pad := replicate (Z.to_nat k - length best) (-1, ((-1000000) # 1)%Q) in
        Some (map fst (best ++ pad), map snd (best ++ pad))
  | _ => None
  end.

Definition backend : Backend := {|
  vec := Z;
  ann := list Z;
  encode := Toy.toy_encode;
  dimension := λ _, 1;
  normalize_L2 := λ v, v;
  IndexFlatIP := λ _, [];
  add := λ a vs, Some (a ++ vs);
  search := rounded_search;
  writable := λ p, negb (bool_decide (p = []))
|}.

(** An index built from three labels. *)
Definition three : t (B := backend) :=
  snd (build (B := backend) (init default_model)
         [T "opening balance"; T "fees"; T "closing balance 500"]).

End Rounded.

(* ===================================================================== *)
(** ** A small world to run ingestion in *)
(* ===================================================================== *)

Module ToyWorld.

(** Three files exist: a scanned receipt, a text note that is no image, and
    a two-page statement whose second page has no selectable text.  A
    picture is modelled by the text printed on it. *)
Definition world : Ingest.World := {|
  Ingest.image := text;
  Ingest.abspath := λ p, p;
  Ingest.file_exists := λ p,
    bool_decide (p ∈ [T "/in/scan.png"; T "/in/notes.txt"; T "/in/st.pdf"]);
  Ingest.PYMUPDF_AVAILABLE := true;
  Ingest.PDF2IMAGE_AVAILABLE := true;
  Ingest.fitz_texts := λ p,
    if bool_decide (p = T "/in/st.pdf")
    then Some [T "Alpha bank statement. Balance is five hundred rupees."; T ""]
    else None;
  Ingest.convert_from_path := λ p,
    if bool_decide (p = T "/in/st.pdf")
    then Some [T "Alpha bank statement."; T "Thank you."]
    else None;
  Ingest.image_open := λ p,
    if bool_decide (p = T "/in/scan.png") then Some (T "Paid in full.") else None;
  Ingest.image_to_text := λ img, Some img;
  Ingest.tiktoken := None
|}.

End ToyWorld.

(* ===================================================================== *)
(** ** app.py: the two index commands *)
(* ===================================================================== *)

Module App.

Import VectorIndex.

Definition FAISS_PATH : text := T "rag.index".
Definition PASSAGES_PATH : text := T "passages.json".

Section Commands.

Context {B : Backend}.

(** [build_index_from_chunks]: what is printed, the index returned or the
    exception raised, and the files as the call leaves them. *)
Definition build_index_from_chunks (fs : gmap text file)
    (chunks_meta : list Chunking.passage)
  : list text * result t * gmap text file :=
  let passages := map Chunking.label chunks_meta in
  let emb := init default_model in
  let printed :=
    [T "[INFO] Building embeddings for "
       ++ Py.str_of_int (Z.of_nat (length passages)) ++ T " passages..."] in
  match build emb passages with
  | (inl e, _) => (printed, inl e, fs)
  | (inr _, emb) =>
      match save fs emb FAISS_PATH PASSAGES_PATH with
      | (inl e, fs') => (printed, inl e, fs')
      | (inr _, fs') =>
          (printed ++ [T "[INFO] Saved index to " ++ FAISS_PATH
                         ++ T " and passages to " ++ PASSAGES_PATH],
           inr emb, fs')
      end
  end.

(** [load_index] *)
Definition load_index (fs : gmap text file) : list text * result t :=
  let emb := init default_model in
  match load fs emb FAISS_PATH PASSAGES_PATH with
  | (inl e, _) => ([], inl e)
  | (inr _, emb) => ([T "[INFO] Loaded index."], inr emb)
  end.

End Commands.

End App.

(* ===================================================================== *)
(** ** genai_client.py: the client *)
(* ===================================================================== *)

Module GenAI.

(** [EnvironmentError] is raised by [create_client] itself;
    [ClientFailure] is an exception of [genai.Client]. *)
Inductive failure :=
| EnvironmentError (msg : string)
| ClientFailure.

Section Client.

Variable client : Type.
(** [genai.Client(api_key=key)] *)
Variable Client : text -> option client.
(** [os.environ], after [load_dotenv] *)
Variable environ : gmap text text.

(** [os.getenv("GENAI_API_KEY", "")] *)
Definition get_api_key_from_env : text :=
  default [] (environ !! T "GENAI_API_KEY").

(** [create_client(api_key)]; [None] is the default argument. *)
Definition create_client (api_key : option text) : failure + client :=
  let key :=
    match api_key with
    | Some k => if Py.truthy k then k else get_api_key_from_env
    | None => get_api_key_from_env
    end in
  if negb (Py.truthy key)
  then inl (EnvironmentError "GENAI_API_KEY not found. Set it in a .env file (GENAI_API_KEY=...) or as an environment variable.")
  else match Client key with
       | Some c => inr c
       | None => inl ClientFailure
       end.

End Client.

End GenAI.

(* ===================================================================== *)
(** ** A backend with a roomier encoder *)
(* ===================================================================== *)

Module ToyApp.

Import VectorIndex.

(** As [Toy.toy_encode], with room for a passage label: up to 512
    characters. *)
Definition encode_label (model : text) (ps : list text) : option (list Z) :=
  if forallb (λ p, (length p <=? 512)%nat) ps
  then Some (map (λ p, Z.of_nat (length p)) ps)
  else None.

Definition backend : Backend := {|
  vec := Z;
  ann := list Z;
  encode := encode_label;
  dimension := λ _, 1;
  normalize_L2 := λ v, v;
  IndexFlatIP := λ _, [];
  add := λ a vs, Some (a ++ vs);
  search := Toy.toy_search;
  writable := λ p, negb (bool_decide (p = []))
|}.

End ToyApp.

(* ===================================================================== *)
(** ** streamlit_app.py: finding the uploaded index files *)
(* ===================================================================== *)

Module Upload.

(** [s.endswith(suffix)] *)
Definition endswith (s suffix : text) : bool :=
  bool_decide (suffix `suffix_of` s).

(** [os.path.join(a, b)] (POSIX) *)
Definition path_join (a b : text) : text :=
  match b with
  | "/"%char :: _ => b
  | _ => if Py.truthy a && negb (endswith a (T "/")) then a ++ T "/" ++ b
         else a ++ b
  end.

(** The two loops of lines 114-118 and 120-124: [index_path] and
    [passages_path] are reassigned at every matching name; [path_of] is
    what is stored for a name. *)
Fixpoint scan (path_of : text -> text) (names : list text)
    (index_path passages_path : option text) : option text * option text :=
  match names with
  | [] => (index_path, passages_path)
  | fn :: rest =>
      let index_path :=
        if endswith (Ingest.lower fn) (T ".index")
        then Some (path_of fn) else index_path in
      let passages_path :=
        if endswith (Ingest.lower fn) (T ".json")
        then Some (path_of fn) else passages_path in
      scan path_of rest index_path passages_path
  end.

(** Lines 120-124, over the saved paths. *)
Definition scan_paths (saved_paths : list text) : option text * option text :=
  scan (λ p, p) saved_paths None None.

(** Lines 114-118, over [os.listdir(tmp_dir)]. *)
Definition scan_listing (tmp_dir : text) (listing : list text)
  : option text * option text :=
  scan (path_join tmp_dir) listing None None.

(** Lines 109-124; [listing] is [os.listdir(tmp_dir)] once the archive has
    been extracted. *)
Definition find_index_files (tmp_dir : text) (saved_paths listing : list text)
  : option text * option text :=
  match saved_paths with
  | [z] =>
      if endswith (Ingest.lower z) (T ".zip")
      then scan_listing tmp_dir listing
      else scan_paths saved_paths
  | _ => scan_paths saved_paths
  end.

End Upload.

(* ===================================================================== *)
(** ** A world without rasterizer *)
(* ===================================================================== *)

Module ToyText.

(** One digital statement of two pages, both with selectable text;
    pdf2image is not installed and nothing can be read as an image. *)
Definition world : Ingest.World := {|
  Ingest.image := unit;
  Ingest.abspath := λ p, p;
  Ingest.file_exists := λ p, bool_decide (p = T "/in/Digital.PDF");
  Ingest.PYMUPDF_AVAILABLE := true;
  Ingest.PDF2IMAGE_AVAILABLE := false;
  Ingest.fitz_texts := λ p,
    if bool_decide (p = T "/in/Digital.PDF")
    then Some [T " Opening balance 500. "; T "Closing balance 750."]
    else None;
  Ingest.convert_from_path := λ _, None;
  Ingest.image_open := λ _, None;
  Ingest.image_to_text := λ _, None;
  Ingest.tiktoken := None
|}.

End ToyText.

(* ===================================================================== *)
(** ** Further vocabulary *)
(* ===================================================================== *)

(** A word: not empty and free of whitespace. *)
Definition word (w : text) : Prop :=
  w ≠ [] ∧ Forall (λ c, Py.isspace c = false) w.

(** The text has a character that is not whitespace. *)
Definition inked (s : text) : Prop := ∃ c, c ∈ s ∧ Py.isspace c = false.

(** The words of a list of texts, in order. *)
Definition words_of (l : list text) : list text := concat (map Py.split l).

(** A passage whose label is the header of its own fields followed by its
    text, and whose chunk index is at least 1. *)
Definition labelled (p : passage) : Prop :=
  label p = make_label (source p) (page p) (chunk_index p) (ptext p)
  ∧ 1 ≤ chunk_index p.

(* ===================================================================== *)
(** * Properties *)
(* ===================================================================== *)

(** ** Stripping and splitting *)

Section PyFacts.

Lemma lstrip_decompose (s : text) :
  ∃ ws, s = ws ++ Py.lstrip s ∧ Forall (λ c, Py.isspace c = true) ws.
Proof.
  induction s as [|c s IH]; simpl.
  - exists []. split; [reflexivity | constructor].
  - destruct (Py.isspace c) eqn:Hc.
    + destruct IH as (ws & Hs & Hws). exists (c :: ws). split.
      * simpl. congruence.
      * constructor; assumption.
    + exists []. split; [reflexivity | constructor].
Qed.

Lemma lstrip_head (s : text) c r :
  Py.lstrip s = c :: r → Py.isspace c = false.
Proof.
  induction s as [|d s IH]; simpl; [discriminate|].
  destruct (Py.isspace d) eqn:Hd; [exact IH|].
  intros [= -> _]. exact Hd.
Qed.

Lemma lstrip_fixed c (s : text) :
  Py.isspace c = false → Py.lstrip (c :: s) = c :: s.
Proof. intros H. simpl. rewrite H. reflexivity. Qed.

Lemma rstrip_decompose (s : text) :
  ∃ ws, s = Py.rstrip s ++ ws ∧ Forall (λ c, Py.isspace c = true) ws.
Proof.
  induction s as [|c s (ws & Hs & Hws)]; simpl.
  - exists []. split; [reflexivity | constructor].
  - destruct (Py.rstrip s) as [|d r] eqn:Hr.
    + destruct (Py.isspace c) eqn:Hc.
      * exists (c :: ws). simpl in Hs. subst s. split; [reflexivity|].
        constructor; assumption.
      * exists ws. simpl in *. split; [congruence | assumption].
    + exists ws. split; [|assumption]. simpl. f_equal. exact Hs.
Qed.

Lemma rstrip_cons c (s : text) :
  Py.isspace c = false → ∃ r, Py.rstrip (c :: s) = c :: r.
Proof.
  intros Hc. simpl. destruct (Py.rstrip s); rewrite ?Hc; eauto.
Qed.

Lemma rstrip_idem (s : text) : Py.rstrip (Py.rstrip s) = Py.rstrip s.
Proof.
  induction s as [|c s IH]; simpl; [reflexivity|].
  destruct (Py.rstrip s) as [|d r] eqn:Hr.
  - destruct (Py.isspace c) eqn:Hc; simpl; rewrite ?Hc; reflexivity.
  - change (Py.rstrip (c :: d :: r)) with
      (match Py.rstrip (d :: r) with
       | [] => if Py.isspace c then [] else [c]
       | x :: y => c :: x :: y
       end).
    rewrite IH. reflexivity.
Qed.

Lemma strip_idem (s : text) : Py.strip (Py.strip s) = Py.strip s.
Proof.
  unfold Py.strip.
  destruct (Py.lstrip s) as [|c r] eqn:Hl; [reflexivity|].
  pose proof (lstrip_head _ _ _ Hl) as Hc.
  destruct (rstrip_cons c r Hc) as (r' & Hr). rewrite Hr.
  rewrite (lstrip_fixed c r' Hc), <- Hr. apply rstrip_idem.
Qed.

(** [strip] removes a whitespace prefix and a whitespace suffix. *)
Lemma strip_decompose (s : text) :
  ∃ w1 w2, s = w1 ++ Py.strip s ++ w2
           ∧ Forall (λ c, Py.isspace c = true) w1
           ∧ Forall (λ c, Py.isspace c = true) w2.
Proof.
  destruct (lstrip_decompose s) as (w1 & H1 & Hw1).
  destruct (rstrip_decompose (Py.lstrip s)) as (w2 & H2 & Hw2).
  exists w1, w2. unfold Py.strip. rewrite <- H2. auto.
Qed.

Lemma strip_nonempty (s : text) c :
  c ∈ s → Py.isspace c = false → Py.strip s ≠ [].
Proof.
  intros Hin Hc Hnil.
  destruct (strip_decompose s) as (w1 & w2 & Hs & Hw1 & Hw2).
  rewrite Hnil in Hs. simpl in Hs. subst s.
  apply elem_of_app in Hin.
  rewrite !Forall_forall in *.
  destruct Hin as [Hin|Hin]; [apply Hw1 in Hin | apply Hw2 in Hin]; congruence.
Qed.

Lemma strip_whitespace (s : text) :
  (∀ c, c ∈ s → Py.isspace c = true) → Py.strip s = [].
Proof.
  intros Hall.
  assert (Hl : Py.lstrip s = []).
  { induction s as [|c s IH]; simpl; [reflexivity|].
    rewrite (Hall c) by left. apply IH. intros d Hd. apply Hall. by right. }
  unfold Py.strip. rewrite Hl. reflexivity.
Qed.

Lemma split_ws_nonempty (s acc : text) :
  acc ≠ [] ∨ (∃ c, c ∈ s ∧ Py.isspace c = false) → Py.split_ws acc s ≠ [].
Proof.
  revert acc. induction s as [|c s IH]; intros acc H; simpl.
  - destruct H as [H|(c & Hc & _)]; [|by apply elem_of_nil in Hc].
    destruct acc; [congruence | discriminate].
  - destruct (Py.isspace c) eqn:Hc.
    + destruct acc; [|discriminate].
      apply IH. right. destruct H as [H|(d & Hd & Hsp)]; [congruence|].
      apply elem_of_cons in Hd as [->|Hd]; [congruence | eauto].
    + apply IH. left. discriminate.
Qed.

Lemma split_nonempty (s : text) c :
  c ∈ s → Py.isspace c = false → Py.split s ≠ [].
Proof. intros. apply split_ws_nonempty. right. eauto. Qed.

End PyFacts.

(** ** Sentence splitting *)

Lemma unbroken_tail c (s : text) : unbroken (c :: s) → unbroken s.
Proof.
  intros H pre x y post ->. apply (H (c :: pre) x y post). reflexivity.
Qed.

Lemma unbroken_infix (w1 s w2 : text) : unbroken (w1 ++ s ++ w2) → unbroken s.
Proof.
  intros H pre x y post ->. apply (H (w1 ++ pre) x y (post ++ w2)).
  by rewrite <- !app_assoc.
Qed.

Lemma sent_split_unbroken (s acc : text) (prev_term : bool) :
  unbroken s →
  (prev_term = true → ∀ d r, s = d :: r → Py.isspace d = false) →
  sent_split acc prev_term false s = [rev acc ++ s].
Proof.
  revert acc prev_term. induction s as [|c s IH]; intros acc pt Hs Hpt; simpl.
  - by rewrite app_nil_r.
  - destruct (Py.isspace c) eqn:Hc.
    + destruct pt.
      * rewrite (Hpt eq_refl c s eq_refl) in Hc. discriminate.
      * rewrite IH; [| by eapply unbroken_tail | discriminate].
        simpl. by rewrite <- app_assoc.
    + rewrite IH; [| by eapply unbroken_tail |].
      * simpl. by rewrite <- app_assoc.
      * intros Ht d r ->. by apply (Hs [] c d r).
Qed.

Lemma split_into_sentences_unbroken (page : text) c :
  c ∈ page → Py.isspace c = false → unbroken page →
  split_into_sentences page = [Py.strip page].
Proof.
  intros Hin Hc Hu. unfold split_into_sentences.
  pose proof (strip_nonempty page c Hin Hc) as Hne.
  destruct (strip_decompose page) as (w1 & w2 & Hpage & _ & _).
  assert (Hu' : unbroken (Py.strip page)).
  { apply (unbroken_infix w1 _ w2). by rewrite <- Hpage. }
  destruct (Py.strip page) as [|x t] eqn:Ht; [done|]. simpl Py.truthy. cbv iota.
  unfold re_split. rewrite sent_split_unbroken; [|done|discriminate].
  simpl rev. simpl app. simpl map.
  rewrite <- Ht, strip_idem, Ht. reflexivity.
Qed.

(** ** Packing *)

Section PackFacts.

Variable tk : tokenizer.
Variable max_tokens : Z.
Variable encoder_name : text.

Lemma split_words_piece ws out piece pt :
  ws ≠ [] ∨ piece ≠ [] →
  (split_words tk max_tokens encoder_name ws out piece pt).1.2 ≠ [].
Proof.
  revert out piece pt. induction ws as [|w ws IH]; intros out piece pt H; simpl.
  - destruct H; congruence.
  - destruct (_ >? _); apply IH; right; [discriminate|].
    destruct piece; discriminate.
Qed.

Lemma pack_sentence_cur b sent :
  Py.split sent ≠ [] →
  cur (pack_sentence tk max_tokens encoder_name b sent) ≠ [].
Proof.
  intros Hw. unfold pack_sentence.
  destruct (_ >? _).
  - pose proof (split_words_piece (Py.split sent) (chunks b) [] 0 (or_introl Hw))
      as Hp.
    destruct (split_words _ _ _ _ _ _ _) as [[out piece] ptk]. simpl in Hp.
    destruct piece as [|p piece]; [done|]. simpl Py.truthy. cbv iota.
    destruct (_ <=? _); intros Hnil; simpl in Hnil;
      destruct (cur b); discriminate.
  - destruct (_ <=? _); intros Hnil; simpl in Hnil;
      destruct (cur b); discriminate.
Qed.

Lemma flush_chunks_nonempty b :
  cur b ≠ [] → chunks (flush b) ≠ [].
Proof.
  intros H. unfold flush. simpl. destruct (cur b); [done|]. simpl.
  intros Hnil. by apply app_eq_nil in Hnil as [_ ?].
Qed.

Lemma overlap_loop_length ov (overlapped rest : list text) :
  length (overlap_loop ov overlapped rest) = (length overlapped + length rest)%nat.
Proof.
  revert overlapped. induction rest as [|c rest IH]; intros overlapped; simpl.
  - lia.
  - rewrite IH, length_app. simpl. lia.
Qed.

Lemma add_overlap_length ov (cs : list text) :
  length (add_overlap ov cs) = length cs.
Proof.
  unfold add_overlap. destruct (_ && _); [|done].
  destruct cs; [done|]. by rewrite overlap_loop_length.
Qed.

Lemma number_chunks_length src pg i (cs : list text) :
  length (number_chunks src pg i cs) = length cs.
Proof.
  revert i. induction cs as [|c cs IH]; intros i; simpl; [done|]. by rewrite IH.
Qed.

End PackFacts.

(** C10.  A page with a non-whitespace character and no terminator
    ('.', '?', '!') directly followed by whitespace is one sentence, the
    trimmed page, and [chunk_page_text] returns at least one passage for
    it; a page of whitespace only has no sentence and no passage. *)
Theorem single_sentence_page (page : text) :
  ((∃ c, c ∈ page ∧ Py.isspace c = false) →
   (∀ pre c d post, page = pre ++ c :: d :: post →
      is_terminator c = true → Py.isspace d = false) →
   split_into_sentences page = [Py.strip page]
   ∧ ∀ tk max_tokens enc src page_no overlap_tokens,
       (1 ≤ length (chunk_page_text tk max_tokens enc page src page_no
                      overlap_tokens))%nat)
  ∧
  ((∀ c, c ∈ page → Py.isspace c = true) →
   split_into_sentences page = []
   ∧ ∀ tk max_tokens enc src page_no overlap_tokens,
       chunk_page_text tk max_tokens enc page src page_no overlap_tokens = []).
Proof.
  split.
  - intros (c & Hin & Hc) Hu.
    pose proof (split_into_sentences_unbroken page c Hin Hc Hu) as Hs.
    split; [exact Hs|]. intros tk M enc src pg ov.
    unfold chunk_page_text. rewrite Hs, number_chunks_length.
    unfold chunk_sentences_to_chunks. simpl Py.truthy. cbv iota.
    rewrite add_overlap_length. unfold pack. simpl fold_left.
    assert (Hw : Py.split (Py.strip page) ≠ []).
    { destruct (strip_decompose page) as (w1 & w2 & Hpage & Hw1 & Hw2).
      assert (c ∈ Py.strip page) as Hin'.
      { rewrite Hpage in Hin. rewrite !elem_of_app in Hin.
        rewrite !Forall_forall in *.
        destruct Hin as [Hin|[Hin|Hin]]; [apply Hw1 in Hin|done|apply Hw2 in Hin];
          congruence. }
      by eapply split_nonempty. }
    pose proof (flush_chunks_nonempty _
                  (pack_sentence_cur tk M enc (Buffer [] [] 0) _ Hw)) as Hne.
    destruct (chunks _); [done | simpl; lia].
  - intros Hall. unfold chunk_page_text, split_into_sentences.
    rewrite (strip_whitespace page Hall). simpl. done.
Qed.

(** C10 at a page without punctuation and at a blank page. *)
Lemma single_sentence_page_witness :
  (split_into_sentences (T "  opening balance 500 ") = [T "opening balance 500"]
   ∧ (1 ≤ length (chunk_page_text None 800 (T "gpt2")
                    (T "  opening balance 500 ") (T "doc.pdf") 1 150))%nat)
  ∧ split_into_sentences (T "   ") = [].
Proof.
  split.
  - destruct (single_sentence_page (T "  opening balance 500 ")) as [H _].
    destruct H as [Hs Hc].
    + exists "o"%char. split; [|reflexivity].
      do 2 right. left.
    + intros pre c d post Heq Hterm.
      assert (¬ c ∈ T "  opening balance 500 ") as Hno.
      { intros Hc. vm_compute in Hc.
        repeat (apply elem_of_cons in Hc as [->|Hc]; [discriminate|]).
        by apply elem_of_nil in Hc. }
      exfalso. apply Hno. rewrite Heq. apply elem_of_app. right. left.
    + split; [exact Hs | apply Hc].
  - destruct (single_sentence_page (T "   ")) as [_ H].
    apply H. intros c Hc. vm_compute in Hc.
    repeat (apply elem_of_cons in Hc as [->|Hc]; [reflexivity|]).
    by apply elem_of_nil in Hc.
Defined.

(** ** Overlap *)

Lemma overlap_loop_from ov (rest overlapped : list text) :
  overlapped ≠ [] →
  overlap_loop ov overlapped rest
  = overlapped ++ overlap_from ov (List.last overlapped []) rest.
Proof.
  revert overlapped. induction rest as [|c rest IH]; intros overlapped Hne; simpl.
  - by rewrite app_nil_r.
  - rewrite IH.
    + rewrite last_last, <- app_assoc. reflexivity.
    + intros Hnil. by apply app_eq_nil in Hnil as [_ ?].
Qed.

Lemma overlap_from_lookup ov (rest : list text) prev0 i prev c :
  (prev0 :: overlap_from ov prev0 rest) !! i = Some prev →
  rest !! i = Some c →
  overlap_from ov prev0 rest !! i = Some (overlapped_chunk ov prev c).
Proof.
  revert prev0 i. induction rest as [|c1 rest IH]; intros prev0 i Hprev Hc.
  - by rewrite lookup_nil in Hc.
  - destruct i as [|i]; simpl in *.
    + by simplify_eq.
    + by apply IH.
Qed.

Lemma last_words_suffix n (ws : list text) : last_words n ws `suffix_of` ws.
Proof. unfold last_words. destruct (_ <=? _)%nat; [apply suffix_drop | done]. Qed.

Lemma last_words_length n (ws : list text) :
  length (last_words n ws) = (n `min` length ws)%nat.
Proof.
  unfold last_words. destruct (Nat.leb_spec n (length ws)).
  - rewrite length_drop. lia.
  - lia.
Qed.

Lemma approx_words_spec ov : Z.of_nat (approx_words ov) = Z.max 1 (10 * ov / 13).
Proof. unfold approx_words. lia. Qed.

(** C3, as the code has it.  With [overlap_tokens > 0] and at least two
    packed chunks, the pass keeps the number of chunks and chunk 0, and
    chunk [i+1] is the space-join of a word suffix of the final (already
    overlapped) chunk [i] followed by the words of packed chunk [i+1]; the
    suffix has [max(1, floor(overlap_tokens / 1.3))] words, or all the words
    of final chunk [i] when it has fewer. *)
Theorem overlap_structure tk max_tokens enc (sentences : list text) (ov : Z) :
  let packed := pack tk max_tokens enc sentences in
  let out := chunk_sentences_to_chunks tk max_tokens enc sentences ov in
  0 < ov → (2 ≤ length packed)%nat →
  length out = length packed
  ∧ out !! 0%nat = packed !! 0%nat
  ∧ ∀ i prev c, out !! i = Some prev → packed !! S i = Some c →
      ∃ overlap_words,
        out !! S i = Some (Py.join sp (overlap_words ++ Py.split c))
        ∧ overlap_words `suffix_of` Py.split prev
        ∧ Z.of_nat (length overlap_words)
          = Z.min (Z.max 1 (10 * ov / 13)) (Z.of_nat (length (Py.split prev))).
Proof.
  intros packed out Hov Hlen.
  assert (Hout : out = add_overlap ov packed).
  { unfold out, chunk_sentences_to_chunks. destruct sentences; [|done].
    exfalso. unfold packed in Hlen. simpl in Hlen. lia. }
  rewrite Hout. clear Hout out.
  split; [apply add_overlap_length|].
  unfold add_overlap.
  assert ((ov >? 0) && (1 <? length packed)%nat = true) as ->.
  { apply andb_true_intro. split; [lia | by apply Nat.ltb_lt]. }
  destruct packed as [|c0 rest]; [simpl in Hlen; lia|].
  rewrite overlap_loop_from by done. simpl List.last. simpl app.
  split; [done|].
  intros i prev c Hprev Hc. simpl in Hc.
  exists (last_words (approx_words ov) (Py.split prev)).
  split; [|split].
  - simpl. by apply overlap_from_lookup.
  - apply last_words_suffix.
  - rewrite last_words_length, Nat2Z.inj_min, approx_words_spec. reflexivity.
Qed.

(** C3 at three one-word sentences packed one per chunk. *)
Lemma overlap_structure_witness :
  let sentences := split_into_sentences (T "a. b. c.") in
  let packed := pack None 1 (T "gpt2") sentences in
  let out := chunk_sentences_to_chunks None 1 (T "gpt2") sentences 150 in
  length out = length packed
  ∧ out !! 0%nat = packed !! 0%nat
  ∧ ∀ i prev c, out !! i = Some prev → packed !! S i = Some c →
      ∃ overlap_words,
        out !! S i = Some (Py.join sp (overlap_words ++ Py.split c))
        ∧ overlap_words `suffix_of` Py.split prev
        ∧ Z.of_nat (length overlap_words)
          = Z.min (Z.max 1 (10 * 150 / 13)) (Z.of_nat (length (Py.split prev))).
Proof.
  apply (overlap_structure None 1 (T "gpt2")
           (split_into_sentences (T "a. b. c.")) 150).
  - lia.
  - vm_compute. lia.
Defined.

(** C3 as the specification words it fails: the third chunk starts with
    words of the first chunk, not with a word suffix of the second chunk's
    own content. *)
Lemma overlap_reaches_back :
  let sentences := split_into_sentences (T "a. b. c.") in
  let packed := pack None 1 (T "gpt2") sentences in
  let out := chunk_sentences_to_chunks None 1 (T "gpt2") sentences 150 in
  packed = [T "a."; T "b."; T "c."]
  ∧ out = [T "a."; T "a. b."; T "a. b. c."]
  ∧ ∀ overlap_words,
      overlap_words ≠ [] → overlap_words `suffix_of` Py.split (T "b.") →
      ¬ (Py.join sp overlap_words `prefix_of` T "a. b. c.").
Proof.
  split; [by vm_compute|]. split; [by vm_compute|].
  intros ws Hne [k Hk] [rest Hrest].
  vm_compute in Hk.
  destruct k as [|x [|y k]]; simpl in Hk.
  - subst ws. vm_compute in Hrest. discriminate.
  - injection Hk as _ <-. done.
  - destruct k; discriminate.
Qed.

(** ** The token budget *)

Section BudgetFacts.

Variable tk : tokenizer.
Variable max_tokens : Z.
Variable encoder_name : text.
Variable sentences : list text.

Local Abbreviation tokens t := (tokens_length tk t encoder_name).
Local Abbreviation word_tokens :=
  (λ w : text, tokens_length tk (w ++ sp) encoder_name).
Local Abbreviation part_tokens := (Budget.part_tokens tk encoder_name).
Local Abbreviation part_of_input :=
  (Budget.part_of_input tk max_tokens encoder_name sentences).
Local Abbreviation within_budget :=
  (Budget.within_budget tk max_tokens encoder_name sentences).
Local Abbreviation buffer_ok :=
  (Budget.buffer_ok tk max_tokens encoder_name sentences).

Hypothesis short_words :
  ∀ s w, s ∈ sentences → tokens s > max_tokens → w ∈ Py.split s →
         tokens (w ++ sp) ≤ max_tokens.

Lemma zsum_snoc l x : zsum (l ++ [x]) = zsum l + x.
Proof. induction l as [|y l IH]; simpl; lia. Qed.

Lemma flush_ok b : buffer_ok b → buffer_ok (flush b).
Proof.
  intros (Hch & ps & Hcur & Hps & Htok & Hle). split.
  - unfold flush. simpl. destruct (cur b) as [|x l] eqn:Hc; [exact Hch|].
    simpl Py.truthy. cbv iota. apply Forall_app. split; [exact Hch|].
    constructor; [|constructor].
    exists ps. assert (ps ≠ []) as Hne by (destruct ps; [discriminate | done]).
    split; [done|]. split; [done|]. split; [by rewrite <- Hcur|].
    rewrite <- Htok. auto.
  - exists []. simpl. split; [done|]. split; [constructor|]. split; done.
Qed.

Lemma split_words_ok s ws out before piece pt :
  s ∈ sentences → tokens s > max_tokens →
  Py.split s = before ++ piece ++ ws →
  Forall within_budget out →
  pt = zsum (map word_tokens piece) →
  (piece ≠ [] → pt ≤ max_tokens) →
  match split_words tk max_tokens encoder_name ws out piece pt with
  | (out', piece', pt') =>
      Forall within_budget out'
      ∧ (∃ before', Py.split s = before' ++ piece')
      ∧ pt' = zsum (map word_tokens piece')
      ∧ (piece' ≠ [] → pt' ≤ max_tokens)
  end.
Proof.
  intros Hs Hlong. revert out before piece pt.
  induction ws as [|w ws IH]; intros out before piece pt Hrun Hout Hpt Hle; simpl.
  - rewrite app_nil_r in Hrun. eauto.
  - assert (Hw : tokens (w ++ sp) ≤ max_tokens).
    { apply (short_words s w Hs Hlong). rewrite Hrun.
      apply elem_of_app. right. apply elem_of_app. right. left. }
    destruct (Z.gtb_spec (pt + tokens (w ++ sp)) max_tokens) as [Hgt|Hfit].
    + assert (piece ≠ []) as Hne.
      { intros ->. simpl in Hpt. lia. }
      apply (IH _ (before ++ piece)).
      * rewrite Hrun. by rewrite <- app_assoc.
      * apply Forall_app. split; [exact Hout|]. constructor; [|constructor].
        exists [Piece piece]. split; [done|]. split.
        { constructor; [|constructor]. simpl. split; [done|].
          exists s. split; [done|]. split; [done|]. eauto. }
        split; [done|]. simpl. rewrite <- Hpt. specialize (Hle Hne). lia.
      * simpl. lia.
      * intros _. exact Hw.
    + apply (IH _ before).
      * rewrite Hrun. by rewrite <- (app_assoc piece).
      * exact Hout.
      * rewrite map_app. cbn [map]. rewrite zsum_snoc. lia.
      * intros _. lia.
Qed.

Lemma buffer_ok_push b p t :
  buffer_ok b → part_of_input p → part_text p = t →
  cur_tokens b + part_tokens p ≤ max_tokens →
  buffer_ok {| chunks := chunks b; cur := cur b ++ [t];
               cur_tokens := cur_tokens b + part_tokens p |}.
Proof.
  intros (Hch & ps & Hcur & Hps & Htok & Hle) Hp <- Hfit. split; [exact Hch|].
  exists (ps ++ [p]). simpl. split; [by rewrite map_app, Hcur|].
  split; [apply Forall_app; split; [done | by constructor]|].
  split; [rewrite map_app; cbn [map]; rewrite zsum_snoc; lia | auto].
Qed.

Lemma buffer_ok_restart b p t :
  buffer_ok b → part_of_input p → part_text p = t →
  part_tokens p ≤ max_tokens →
  buffer_ok {| chunks := chunks (flush b); cur := cur (flush b) ++ [t];
               cur_tokens := part_tokens p |}.
Proof.
  intros Hb Hp <- Hfit. apply flush_ok in Hb as [Hch _]. split; [exact Hch|].
  exists [p]. simpl. split; [done|]. split; [by constructor|]. split; [lia|auto].
Qed.

Lemma pack_sentence_ok b sent :
  sent ∈ sentences → buffer_ok b →
  buffer_ok (pack_sentence tk max_tokens encoder_name b sent).
Proof.
  intros Hin Hb. unfold pack_sentence.
  destruct (Z.gtb_spec (tokens sent) max_tokens) as [Hlong|Hshort].
  - assert (Hlong' : tokens sent > max_tokens) by lia.
    pose proof (split_words_ok sent (Py.split sent) (chunks b) [] [] 0 Hin Hlong'
                  eq_refl (proj1 Hb) eq_refl (λ H, False_ind _ (H eq_refl))) as Hsw.
    destruct (split_words _ _ _ _ _ _ _) as [[out piece] pt].
    destruct Hsw as (Hout & (before & Hpiece) & Hpt & Hle).
    set (b1 := {| chunks := out; cur := cur b; cur_tokens := cur_tokens b |}).
    assert (Hb1 : buffer_ok b1).
    { split; [exact Hout|]. destruct Hb as (_ & Hcur). exact Hcur. }
    destruct (decide (piece = [])) as [->|Hne]; [exact Hb1|].
    assert (Py.truthy piece = true) as -> by (by destruct piece).
    assert (Hpart : part_of_input (Piece piece)).
    { simpl. split; [done|]. exists sent. split; [done|]. split; [done|].
      exists before, []. by rewrite app_nil_r. }
    assert (Htok : part_tokens (Piece piece) = pt) by (by simpl).
    specialize (Hle Hne).
    destruct (Z.leb_spec (cur_tokens b1 + pt) max_tokens) as [Hroom|Hfull].
    + rewrite <- Htok. apply (buffer_ok_push b1 (Piece piece)); [done|done|done|lia].
    + rewrite <- Htok. apply (buffer_ok_restart b1 (Piece piece)); [done|done|done|lia].
  - assert (Hpart : part_of_input (Whole sent)) by (simpl; auto).
    destruct (Z.leb_spec (cur_tokens b + tokens sent) max_tokens) as [Hroom|Hfull].
    + by apply (buffer_ok_push b (Whole sent)).
    + by apply (buffer_ok_restart b (Whole sent)).
Qed.

Lemma fold_pack_ok l b :
  (∀ s, s ∈ l → s ∈ sentences) → buffer_ok b →
  buffer_ok (fold_left (pack_sentence tk max_tokens encoder_name) l b).
Proof.
  revert b. induction l as [|s l IH]; intros b Hl Hb; simpl; [exact Hb|].
  apply IH.
  - intros x Hx. apply Hl. by right.
  - apply pack_sentence_ok; [apply Hl; left | exact Hb].
Qed.

Lemma pack_within_budget c :
  c ∈ pack tk max_tokens encoder_name sentences → within_budget c.
Proof.
  unfold pack. intros Hc.
  assert (Hb : buffer_ok (flush (fold_left (pack_sentence tk max_tokens encoder_name)
                                   sentences (Buffer [] [] 0)))).
  { apply flush_ok, fold_pack_ok; [done|].
    split; [constructor|]. exists []. simpl. split; [done|].
    split; [constructor|]. split; done. }
  destruct Hb as [Hch _]. rewrite Forall_forall in Hch. by apply Hch.
Qed.

End BudgetFacts.

(** A run is taken in the order of the sentence: the last word of
    [b c d e.] followed by its first is no part of it. *)
Lemma part_of_input_in_order :
  ¬ Budget.part_of_input None 2 (T "gpt2") [T "b c d e."]
      (Piece [T "e."; T "b"]).
Proof.
  intros (_ & s & Hs & _ & before & after & Hrun).
  apply list_elem_of_singleton in Hs as ->. vm_compute in Hrun.
  destruct before as [|? [|? [|? [|? [|? ?]]]]]; discriminate.
Qed.




(** ** Order of the chunks *)

Section OrderFacts.

Variable tk : tokenizer.
Variable max_tokens : Z.
Variable encoder_name : text.

Local Abbreviation chunk_of := (λ g : list text, Py.strip (Py.join sp g)).

Lemma fold_pack_groups (l : list text) b groups :
  (∀ s, s ∈ l → tokens_length tk s encoder_name ≤ max_tokens) →
  chunks b = map chunk_of groups → Forall (λ g, g ≠ []) groups →
  ∃ groups',
    chunks (fold_left (pack_sentence tk max_tokens encoder_name) l b)
    = map chunk_of groups'
    ∧ Forall (λ g, g ≠ []) groups'
    ∧ concat groups' ++ cur (fold_left (pack_sentence tk max_tokens encoder_name) l b)
      = concat groups ++ cur b ++ l.
Proof.
  revert b groups. induction l as [|s l IH]; intros b groups Hl Hch Hne; simpl.
  - exists groups. by rewrite app_nil_r.
  - assert (Hs : tokens_length tk s encoder_name ≤ max_tokens) by (apply Hl; left).
    assert (Hl' : ∀ x, x ∈ l → tokens_length tk x encoder_name ≤ max_tokens)
      by (intros x Hx; apply Hl; by right).
    unfold pack_sentence at 2 4.
    assert ((tokens_length tk s encoder_name >? max_tokens) = false) as -> by lia.
    destruct (_ <=? _).
    + destruct (IH {| chunks := chunks b; cur := cur b ++ [s];
                      cur_tokens := cur_tokens b + tokens_length tk s encoder_name |}
                  groups Hl' Hch Hne) as (g' & H1 & H2 & H3).
      exists g'. simpl in H3. rewrite <- !app_assoc in H3. simpl in H3. done.
    + destruct (cur b) as [|c0 cs] eqn:Hcur.
      * destruct (IH {| chunks := chunks (flush b); cur := cur (flush b) ++ [s];
                        cur_tokens := tokens_length tk s encoder_name |}
                    groups Hl') as (g' & H1 & H2 & H3).
        { unfold flush. simpl. by rewrite Hcur. }
        { done. }
        exists g'. simpl in H3. done.
      * destruct (IH {| chunks := chunks (flush b); cur := cur (flush b) ++ [s];
                        cur_tokens := tokens_length tk s encoder_name |}
                    (groups ++ [c0 :: cs]) Hl') as (g' & H1 & H2 & H3).
        { unfold flush. simpl chunks. rewrite Hcur. simpl Py.truthy. cbv iota.
          by rewrite map_app, Hch. }
        { apply Forall_app. split; [done|]. by constructor. }
        exists g'. split; [done|]. split; [done|].
        rewrite H3, concat_app. simpl. rewrite app_nil_r, <- !app_assoc. done.
Qed.

(** Where no sentence is over-long the chunks are in order: the packed
    chunks are the trimmed space-joins of consecutive groups of
    sentences. *)
Lemma pack_short_sentences_in_order (sentences : list text) :
  (∀ s, s ∈ sentences → tokens_length tk s encoder_name ≤ max_tokens) →
  ∃ groups,
    concat groups = sentences
    ∧ Forall (λ g, g ≠ []) groups
    ∧ pack tk max_tokens encoder_name sentences = map chunk_of groups.
Proof.
  intros Hshort.
  destruct (fold_pack_groups sentences (Buffer [] [] 0) [] Hshort eq_refl)
    as (g & Hch & Hne & Hcat); [constructor|].
  simpl in Hcat. unfold pack, flush.
  destruct (cur (fold_left _ sentences _)) as [|c0 cs] eqn:Hcur; simpl.
  - exists g. rewrite app_nil_r in Hcat. done.
  - exists (g ++ [c0 :: cs]). split; [|split].
    + rewrite concat_app. simpl. by rewrite app_nil_r.
    + apply Forall_app. split; [done|]. by constructor.
    + by rewrite map_app, Hch.
Qed.

End OrderFacts.

(** C1 fails on the code.  "A." waits in the buffer while the first piece
    of the over-long sentence "b c d e." goes straight to the output, so
    the chunks come out as "b c", "A.", "d e." and their words are no
    longer in the order of the page. *)
Theorem long_sentence_overtakes_buffer :
  let sentences := split_into_sentences (T "A. b c d e.") in
  let out := chunk_sentences_to_chunks None 2 (T "gpt2") sentences 0 in
  sentences = [T "A."; T "b c d e."]
  ∧ tokens_length None (T "A.") (T "gpt2") = 1
  ∧ tokens_length None (T "b c d e.") (T "gpt2") = 5
  ∧ out = [T "b c"; T "A."; T "d e."]
  ∧ map ptext (chunk_page_text None 2 (T "gpt2") (T "A. b c d e.")
                 (T "doc.pdf") 1 0) = out
  ∧ concat (map Py.split sentences) = [T "A."; T "b"; T "c"; T "d"; T "e."]
  ∧ concat (map Py.split out) = [T "b"; T "c"; T "A."; T "d"; T "e."].
Proof. repeat split; by vm_compute. Qed.


(* ===================================================================== *)
(** ** The vector index *)
(* ===================================================================== *)

Section IndexFacts.

Import VectorIndex.
Context {B : Backend}.

Lemma build_value_error (s : t) ps :
  (build s ps).1 = raise (ValueError "No passages to index.") ↔ ps = [].
Proof.
  unfold build. destruct ps as [|p ps]; simpl; [done|].
  split; [|done].
  destruct (encode _ _); [destruct (add _ _)|]; simpl; discriminate.
Qed.

Lemma query_not_built (s : t) q k :
  query s q k = raise (RuntimeError "Index not built/loaded.") ↔ index s = None.
Proof.
  unfold query. destruct (index s) as [a|]; [|done].
  split; [|done].
  destruct (encode _ _) as [v|]; simpl; [|discriminate].
  destruct (search _ _ _) as [[? ?]|]; simpl; discriminate.
Qed.

Lemma save_not_built fs (s : t) ip pp :
  (save fs s ip pp).1 = raise (RuntimeError "Index not built.") ↔ index s = None.
Proof.
  unfold save. destruct (index s) as [a|]; [|done].
  split; [|done]. destruct (writable ip), (writable pp); simpl; discriminate.
Qed.

Lemma path_exists_false fs p : path_exists fs p = false ↔ fs !! p = None.
Proof. unfold path_exists. destruct (fs !! p); split; done. Qed.

Lemma load_not_found fs (s : t) ip pp :
  (load fs s ip pp).1 = raise (FileNotFoundError "Index or passages file not found.")
  ↔ fs !! ip = None ∨ fs !! pp = None.
Proof.
  unfold load. rewrite <- !path_exists_false.
  destruct (path_exists fs ip), (path_exists fs pp); simpl;
    try (split; [auto | done]).
  split; [|intros [|]; done].
  destruct (_ ≫= read_index); [destruct (_ ≫= json_load)|]; simpl; discriminate.
Qed.

Lemma load_artifacts fs (s : t) ip pp a v :
  fs !! ip = Some (IndexFile a) → fs !! pp = Some (JsonFile v) →
  load fs s ip pp
  = (ok tt, {| model_name := model_name s; index := Some a; passages := v |}).
Proof.
  intros Hi Hp. unfold load, path_exists. rewrite Hi, Hp. reflexivity.
Qed.

Lemma step_index st o :
  index (step st o).2 = None ↔ index st.2 = None ∧ assigns_index st o = false.
Proof.
  destruct st as [fs s]. destruct o as [ps|ip pp|ip pp|q k]; simpl.
  - unfold build. destruct ps as [|p ps]; simpl; [tauto|].
    destruct (encode _ _) as [v|]; simpl.
    + destruct (add _ _); simpl; (split; [done | by intros [_ ?]]).
    + tauto.
  - tauto.
  - unfold load.
    destruct (path_exists fs ip), (path_exists fs pp); simpl; try tauto.
    destruct (fs !! ip ≫= read_index) as [a|]; simpl.
    + destruct (_ ≫= json_load); simpl; (split; [done | by intros [_ ?]]).
    + tauto.
  - tauto.
Qed.

Lemma run_index ops st :
  index (run ops st).2 = None
  ↔ index st.2 = None ∧ some_assigns_index ops st = false.
Proof.
  revert st. induction ops as [|o ops IH]; intros st; simpl.
  - tauto.
  - change (index (run ops (step st o)).2 = None
            ↔ index st.2 = None
              ∧ assigns_index st o || some_assigns_index ops (step st o) = false).
    rewrite IH, step_index, orb_false_iff. tauto.
Qed.

End IndexFacts.

(** C4, as the code has it.  [build] raises the empty-input error exactly
    on an empty sequence; [query] and [save] raise the not-built error
    exactly when [index] is unset, which after any sequence of calls on a
    new object means that no call got as far as assigning it (a [build]
    whose encoding succeeded, a [load] that read the index file, whether or
    not the call then failed); [load] raises the not-found error exactly
    when a path is missing, and replaces index and passages when the two
    paths hold an index and a passage list. *)
Theorem index_error_conditions (B : VectorIndex.Backend) :
  (∀ s ps, (VectorIndex.build s ps).1 = raise (ValueError "No passages to index.")
           ↔ ps = [])
  ∧ (∀ s q k, VectorIndex.query s q k = raise (RuntimeError "Index not built/loaded.")
              ↔ VectorIndex.index s = None)
  ∧ (∀ fs s ip pp,
       (VectorIndex.save fs s ip pp).1 = raise (RuntimeError "Index not built.")
       ↔ VectorIndex.index s = None)
  ∧ (∀ ops fs model,
       VectorIndex.index (VectorIndex.run ops (fs, VectorIndex.init model)).2 = None
       ↔ VectorIndex.some_assigns_index ops (fs, VectorIndex.init model) = false)
  ∧ (∀ fs s ip pp,
       (VectorIndex.load fs s ip pp).1
       = raise (FileNotFoundError "Index or passages file not found.")
       ↔ fs !! ip = None ∨ fs !! pp = None)
  ∧ (∀ fs s ip pp a v,
       fs !! ip = Some (VectorIndex.IndexFile a) →
       fs !! pp = Some (VectorIndex.JsonFile v) →
       VectorIndex.load fs s ip pp
       = (ok tt, {| VectorIndex.model_name := VectorIndex.model_name s;
                    VectorIndex.index := Some a;
                    VectorIndex.passages := v |})).
Proof.
  split; [apply build_value_error|].
  split; [apply query_not_built|].
  split; [apply save_not_built|].
  split; [|split; [apply load_not_found | apply load_artifacts]].
  intros ops fs model. rewrite run_index. simpl. tauto.
Qed.

(** C4 at a pair of saved files. *)
Lemma index_error_conditions_witness :
  let fs : gmap text (VectorIndex.file (B := Toy.backend)) :=
    {[ T "rag.index" := VectorIndex.IndexFile (B := Toy.backend) [15; 4];
       T "passages.json" := VectorIndex.JsonFile [T "opening balance"; T "fees"] ]} in
  VectorIndex.load fs (VectorIndex.init VectorIndex.default_model)
    (T "rag.index") (T "passages.json")
  = (ok tt, VectorIndex.Make (B := Toy.backend) VectorIndex.default_model
              (Some [15; 4]) [T "opening balance"; T "fees"]).
Proof.
  intros fs.
  destruct (index_error_conditions Toy.backend) as (_ & _ & _ & _ & _ & H).
  apply (H fs); by vm_compute.
Defined.

(** C4 as the specification words it fails: a [load] that reads the index
    file and then cannot decode the passages file raises, and [query] on
    the object it leaves behind does not raise. *)
Lemma query_after_failed_load :
  let fs : gmap text (VectorIndex.file (B := Toy.backend)) :=
    {[ T "rag.index" := VectorIndex.IndexFile (B := Toy.backend) [15; 4];
       T "passages.json" := VectorIndex.OtherFile ]} in
  let r := VectorIndex.load fs (VectorIndex.init VectorIndex.default_model)
             (T "rag.index") (T "passages.json") in
  r.1 = raise (LibraryError "json.load")
  ∧ VectorIndex.query r.2 (T "balance") 4 = ok [].
Proof. split; by vm_compute. Qed.

(** ** Query results *)

Section QueryFacts.

Import VectorIndex.
Context {B : Backend}.

Lemma collect_length ps (I0 : list Z) (D0 : list Q) :
  (length (collect ps (combine I0 D0)) ≤ length I0)%nat.
Proof.
  revert D0. induction I0 as [|i I0 IH]; intros [|d D0]; simpl; try lia.
  specialize (IH D0). destruct (_ || _); simpl; lia.
Qed.

Lemma collect_from ps (I0 : list Z) (D0 : list Q) h :
  h ∈ collect ps (combine I0 D0) →
  id h ∈ filter (λ i, 0 ≤ i) I0 ∧ score h ∈ D0
  ∧ 0 ≤ id h < Z.of_nat (length ps)
  ∧ ps !! Z.to_nat (id h) = Some (passage h).
Proof.
  revert D0. induction I0 as [|i I0 IH]; intros [|d D0]; simpl;
    try (intros H; by apply elem_of_nil in H).
  destruct (Z.ltb_spec i 0) as [Hneg|Hpos]; simpl.
  - intros H. apply IH in H as (H1 & H2 & H3). rewrite filter_cons_False by lia.
    split; [done|]. split; [by right | done].
  - rewrite filter_cons_True by lia.
    destruct (Z.geb_spec i (Z.of_nat (length ps))) as [Hbig|Hin].
    + intros H. apply IH in H as (H1 & H2 & H3).
      split; [by right|]. split; [by right | done].
    + intros H. apply elem_of_cons in H as [->|H].
      * simpl. split; [left|]. split; [left|]. split; [lia|].
        destruct (nth_lookup_or_length ps (Z.to_nat i) []); [done | lia].
      * apply IH in H as (H1 & H2 & H3).
        split; [by right|]. split; [by right | done].
Qed.

Lemma collect_ids_nodup ps (I0 : list Z) (D0 : list Q) :
  NoDup (filter (λ i, 0 ≤ i) I0) → NoDup (map id (collect ps (combine I0 D0))).
Proof.
  revert D0. induction I0 as [|i I0 IH]; intros [|d D0]; simpl;
    try (intros; constructor).
  destruct (Z.ltb_spec i 0) as [Hneg|Hpos]; simpl.
  - rewrite filter_cons_False by lia. apply IH.
  - rewrite filter_cons_True by lia. intros Hnd.
    apply NoDup_cons in Hnd as [Hnotin Hnd].
    destruct (_ >=? _); [by apply IH|]. simpl. apply NoDup_cons. split; [|by apply IH].
    intros Hin. apply list_elem_of_fmap in Hin as (h & -> & Hh).
    apply collect_from in Hh as (Hh & _). done.
Qed.

Lemma collect_sorted ps (I0 : list Z) (D0 : list Q) :
  StronglySorted (λ x y, (y <= x)%Q) D0 →
  StronglySorted (λ x y, (score y <= score x)%Q) (collect ps (combine I0 D0)).
Proof.
  revert D0. induction I0 as [|i I0 IH]; intros [|d D0]; simpl;
    try (intros; constructor).
  intros Hs. apply StronglySorted_inv in Hs as [Hs Hd].
  destruct (_ || _); [by apply IH|]. constructor; [by apply IH|].
  apply Forall_forall. intros h Hh. simpl.
  apply collect_from in Hh as (_ & Hh & _).
  rewrite Forall_forall in Hd. by apply Hd.
Qed.

Lemma collect_pairs ps (pairs : list (Z * Q)) :
  map (λ h, (id h, score h)) (collect ps pairs)
  = filter (λ pair, 0 ≤ pair.1 < Z.of_nat (length ps)) pairs.
Proof.
  induction pairs as [|[i d] pairs IH]; [done|]. simpl.
  destruct (Z.ltb_spec i 0) as [Hneg|Hpos]; simpl.
  - rewrite filter_cons_False by (simpl; lia). exact IH.
  - destruct (Z.geb_spec i (Z.of_nat (length ps))) as [Hbig|Hin].
    + rewrite filter_cons_False by (simpl; lia). exact IH.
    + rewrite filter_cons_True by (simpl; lia). simpl. by rewrite IH.
Qed.

Lemma collect_passages ps (pairs : list (Z * Q)) :
  Forall (λ h, ps !! Z.to_nat (id h) = Some (passage h)) (collect ps pairs).
Proof.
  induction pairs as [|[i d] pairs IH]; simpl; [constructor|].
  destruct (Z.ltb_spec i 0) as [Hneg|Hpos]; simpl; [exact IH|].
  destruct (Z.geb_spec i (Z.of_nat (length ps))) as [Hbig|Hin]; [exact IH|].
  constructor; [|exact IH]. simpl.
  destruct (nth_lookup_or_length ps (Z.to_nat i) []); [done | lia].
Qed.

(** Distinct numbers below [n] are at most [n]. *)
Lemma bounded_nodup_length (l : list Z) (n : nat) :
  NoDup l → (∀ x, x ∈ l → 0 ≤ x < Z.of_nat n) → (length l ≤ n)%nat.
Proof.
  intros Hnd Hb.
  assert (Hnd' : NoDup (map Z.to_nat l)).
  { apply NoDup_fmap_2_strong; [|done].
    intros x y Hx Hy Heq. apply Hb in Hx, Hy. lia. }
  assert (Hincl : incl (map Z.to_nat l) (seq 0 n)).
  { intros x Hx. apply in_map_iff in Hx as (z & <- & Hz).
    apply list_elem_of_In, Hb in Hz. apply in_seq. lia. }
  apply NoDup_ListNoDup in Hnd'.
  pose proof (NoDup_incl_length Hnd' Hincl) as Hlen.
  rewrite length_map, length_seq in Hlen. exact Hlen.
Qed.

End QueryFacts.

(** C5, as the code has it.  When encoding and search succeed, [query] on
    an index holding [N] passages returns, in the order of the search,
    exactly the (id, score) pairs of the search whose id is in [[0, N)]:
    the other ids are filtered out, every result carries the passage stored
    under its id, and its score is the one the search returned, not
    clamped.  So there are at most [min(top_k, N)] results when the search
    returns at most [top_k] ids and no stored id twice, they are ordered by
    descending score when the scores of the search are, and they lie
    between any two bounds the scores of the search lie between. *)
Theorem query_hits (B : VectorIndex.Backend) (s : VectorIndex.t) q top_k
    a q_vec I0 D0 :
  VectorIndex.index s = Some a →
  VectorIndex.encode (VectorIndex.model_name s) [q] = Some q_vec →
  VectorIndex.search a (VectorIndex.normalize_L2 q_vec) top_k = Some (I0, D0) →
  ∃ hits,
    VectorIndex.query s q top_k = ok hits
    ∧ map (λ h, (VectorIndex.id h, VectorIndex.score h)) hits
      = filter (λ pair, 0 ≤ pair.1 < Z.of_nat (length (VectorIndex.passages s)))
          (combine I0 D0)
    ∧ Forall (λ h,
        0 ≤ VectorIndex.id h < Z.of_nat (length (VectorIndex.passages s))
        ∧ VectorIndex.passages s !! Z.to_nat (VectorIndex.id h)
          = Some (VectorIndex.passage h)) hits
    ∧ (Z.of_nat (length I0) ≤ top_k →
       NoDup (filter (λ i, 0 ≤ i) I0) →
       Z.of_nat (length hits)
       ≤ Z.min top_k (Z.of_nat (length (VectorIndex.passages s))))
    ∧ (Sorted (λ x y, (y <= x)%Q) D0 →
       Sorted (λ x y, (VectorIndex.score y <= VectorIndex.score x)%Q) hits)
    ∧ (∀ lo hi : Q,
         Forall (λ d, (lo <= d)%Q ∧ (d <= hi)%Q) D0 →
         Forall (λ h, (lo <= VectorIndex.score h)%Q
                      ∧ (VectorIndex.score h <= hi)%Q) hits).
Proof.
  intros Hidx Henc Hsearch.
  exists (VectorIndex.collect (VectorIndex.passages s) (combine I0 D0)).
  split.
  { unfold VectorIndex.query. rewrite Hidx, Henc. simpl. rewrite Hsearch. done. }
  set (ps := VectorIndex.passages s).
  split; [apply collect_pairs|]. split; [|split; [|split]].
  - apply Forall_forall. intros h Hh.
    apply collect_from in Hh as (_ & _ & ? & ?). done.
  - intros Hk Hnd.
    assert (Hids : (length (map VectorIndex.id (VectorIndex.collect ps (combine I0 D0)))
                    ≤ length ps)%nat).
    { apply bounded_nodup_length; [by apply collect_ids_nodup|].
      intros x Hx. apply list_elem_of_fmap in Hx as (h & -> & Hh).
      by apply collect_from in Hh as (_ & _ & Hr & _). }
    rewrite length_map in Hids.
    pose proof (collect_length ps I0 D0). lia.
  - intros Hsorted. apply StronglySorted_Sorted, collect_sorted.
    apply Sorted_StronglySorted; [|exact Hsorted].
    intros x y z Hxy Hyz. by apply Qle_trans with y.
  - intros lo hi Hbounds. apply Forall_forall. intros h Hh.
    apply collect_from in Hh as (_ & Hh & _).
    rewrite Forall_forall in Hbounds. by apply Hbounds.
Qed.

(** C5 at an index of three passages asked for ten hits: the three stored
    pairs, best first, without the seven padding ids. *)
Lemma query_hits_witness :
  ∃ hits,
    VectorIndex.query Toy.three (T "balance") 10 = ok hits
    ∧ map (λ h, (VectorIndex.id h, VectorIndex.score h)) hits
      = [(1, (1 # 4)%Q); (0, (1 # 9)%Q); (2, (1 # 13)%Q)]
    ∧ Z.of_nat (length hits)
      ≤ Z.min 10 (Z.of_nat (length (VectorIndex.passages Toy.three)))
    ∧ Sorted (λ x y, (VectorIndex.score y <= VectorIndex.score x)%Q) hits
    ∧ Forall (λ h, (-1000000 <= VectorIndex.score h)%Q
                   ∧ (VectorIndex.score h <= 1)%Q) hits.
Proof.
  destruct (query_hits Toy.backend Toy.three (T "balance") 10
              [15; 4; 19] [7]
              [1; 0; 2; -1; -1; -1; -1; -1; -1; -1]
              [1 # 4; 1 # 9; 1 # 13; -1000000 # 1; -1000000 # 1; -1000000 # 1;
               -1000000 # 1; -1000000 # 1; -1000000 # 1; -1000000 # 1]%Q)
    as (hits & Hq & Hpairs & _ & Hcount & Hsorted & Hbounds);
    [by vm_compute..|].
  exists hits. split; [exact Hq|]. split; [rewrite Hpairs; by vm_compute|].
  split; [|split].
  - apply Hcount; [simpl; lia|]. apply (bool_decide_unpack _). by vm_compute.
  - apply Hsorted. repeat constructor; by vm_compute.
  - apply Hbounds. repeat constructor; by vm_compute.
Defined.

(** C5 as the specification words it fails: asked for the text of a stored
    passage, a search that scores in single precision gives that passage
    the score [1 + 2^-23], and [query] returns it with that score, which is
    not in [[-1, 1]]. *)
Lemma query_score_above_one :
  VectorIndex.query Rounded.three (T "fees") 10
  = ok [ VectorIndex.Hit 1 (8388609 # 8388608) (T "fees");
         VectorIndex.Hit 0 (1 # 12) (T "opening balance");
         VectorIndex.Hit 2 (1 # 16) (T "closing balance 500") ]
  ∧ ¬ (8388609 # 8388608 <= 1)%Q.
Proof. split; by vm_compute. Qed.

(** ** Persistence and failures *)

(** C6.  [save] to two different paths followed by [load] into a new
    object of the same model gives back the object that was saved: the
    same passages in the same order, the same search structure, hence the
    same answer to every query. *)
Theorem save_load_round_trip (B : VectorIndex.Backend) fs (s : VectorIndex.t)
    ip pp fs' :
  ip ≠ pp →
  VectorIndex.save fs s ip pp = (ok tt, fs') →
  let loaded := VectorIndex.load fs' (VectorIndex.init (VectorIndex.model_name s))
                  ip pp in
  loaded.1 = ok tt
  ∧ VectorIndex.passages loaded.2 = VectorIndex.passages s
  ∧ VectorIndex.index loaded.2 = VectorIndex.index s
  ∧ ∀ q top_k, VectorIndex.query loaded.2 q top_k = VectorIndex.query s q top_k.
Proof.
  intros Hne Hsave. unfold VectorIndex.save in Hsave.
  destruct (VectorIndex.index s) as [a|] eqn:Hidx; [|discriminate].
  destruct (VectorIndex.writable ip); [|discriminate].
  destruct (VectorIndex.writable pp); [|discriminate].
  simpl in Hsave. injection Hsave as <-.
  assert (Hload :
    VectorIndex.load (<[pp := VectorIndex.JsonFile (VectorIndex.passages s)]>
                        (<[ip := VectorIndex.IndexFile a]> fs))
      (VectorIndex.init (VectorIndex.model_name s)) ip pp = (ok tt, s)).
  { rewrite (load_artifacts _ _ ip pp a (VectorIndex.passages s)).
    - destruct s; simpl in *. by rewrite Hidx.
    - rewrite lookup_insert_ne by done. apply lookup_insert_eq.
    - apply lookup_insert_eq. }
  simpl. rewrite Hload. simpl. rewrite Hidx. done.
Qed.

(** C6 at the index of three passages. *)
Lemma save_load_round_trip_witness :
  let saved := VectorIndex.save ∅ Toy.three (T "rag.index") (T "passages.json") in
  let loaded := VectorIndex.load saved.2 (VectorIndex.init VectorIndex.default_model)
                  (T "rag.index") (T "passages.json") in
  loaded.1 = ok tt
  ∧ VectorIndex.passages loaded.2 = VectorIndex.passages Toy.three
  ∧ VectorIndex.index loaded.2 = VectorIndex.index Toy.three
  ∧ ∀ q top_k,
      VectorIndex.query loaded.2 q top_k = VectorIndex.query Toy.three q top_k.
Proof.
  intros saved loaded.
  apply (save_load_round_trip Toy.backend ∅ Toy.three (T "rag.index")
           (T "passages.json") saved.2).
  - discriminate.
  - reflexivity.
Defined.

(** C7, as the code has it.  An external call that fails during an
    operation of the index makes the operation raise, and what the object
    holds afterwards depends on where the call stands among the
    assignments.  In [build] on a non-empty sequence: when the encoder
    fails, the search structure is the one from before the call but
    [passages] already holds the new sequence; when [add] fails, [passages]
    holds the new sequence and the search structure is a new empty one.  In
    [load] with both paths present: when [read_index] fails the object is
    unchanged; when [json.load] fails, [passages] is unchanged but the
    search structure is the one just read.  [query], when the encoder or the
    search fails, and [save], when a file cannot be written, raise and
    leave the object unchanged, as they leave it in every case. *)
Theorem failed_build_state (B : VectorIndex.Backend) (s : VectorIndex.t) :
  (∀ ps, ps ≠ [] →
     VectorIndex.encode (VectorIndex.model_name s) ps = None →
     VectorIndex.build s ps
     = (raise (LibraryError "encode"),
        {| VectorIndex.model_name := VectorIndex.model_name s;
           VectorIndex.index := VectorIndex.index s;
           VectorIndex.passages := ps |}))
  ∧ (∀ ps vectors, ps ≠ [] →
       VectorIndex.encode (VectorIndex.model_name s) ps = Some vectors →
       VectorIndex.add
         (VectorIndex.IndexFlatIP (VectorIndex.dimension (VectorIndex.model_name s)))
         (VectorIndex.normalize_L2 vectors) = None →
       VectorIndex.build s ps
       = (raise (LibraryError "add"),
          {| VectorIndex.model_name := VectorIndex.model_name s;
             VectorIndex.index :=
               Some (VectorIndex.IndexFlatIP
                       (VectorIndex.dimension (VectorIndex.model_name s)));
             VectorIndex.passages := ps |}))
  ∧ (∀ fs ip pp f g, fs !! ip = Some f → fs !! pp = Some g →
       VectorIndex.read_index f = None →
       VectorIndex.load fs s ip pp = (raise (LibraryError "read_index"), s))
  ∧ (∀ fs ip pp f g a, fs !! ip = Some f → fs !! pp = Some g →
       VectorIndex.read_index f = Some a →
       VectorIndex.json_load g = None →
       VectorIndex.load fs s ip pp
       = (raise (LibraryError "json.load"),
          {| VectorIndex.model_name := VectorIndex.model_name s;
             VectorIndex.index := Some a;
             VectorIndex.passages := VectorIndex.passages s |}))
  ∧ (∀ q top_k, is_Some (VectorIndex.index s) →
       VectorIndex.encode (VectorIndex.model_name s) [q] = None →
       VectorIndex.query s q top_k = raise (LibraryError "encode"))
  ∧ (∀ q top_k a q_vec, VectorIndex.index s = Some a →
       VectorIndex.encode (VectorIndex.model_name s) [q] = Some q_vec →
       VectorIndex.search a (VectorIndex.normalize_L2 q_vec) top_k = None →
       VectorIndex.query s q top_k = raise (LibraryError "search"))
  ∧ (∀ fs ip pp, is_Some (VectorIndex.index s) →
       VectorIndex.writable ip = false →
       VectorIndex.save fs s ip pp = (raise (LibraryError "write_index"), fs))
  ∧ (∀ fs ip pp, is_Some (VectorIndex.index s) →
       VectorIndex.writable ip = true → VectorIndex.writable pp = false →
       (VectorIndex.save fs s ip pp).1 = raise (LibraryError "open"))
  ∧ (∀ fs q top_k,
       (VectorIndex.step (fs, s) (VectorIndex.CallQuery q top_k)).2 = s)
  ∧ (∀ fs ip pp,
       (VectorIndex.step (fs, s) (VectorIndex.CallSave ip pp)).2 = s).
Proof.
  repeat split.
  - intros ps Hne Henc. unfold VectorIndex.build.
    destruct ps as [|p ps]; [done|]. simpl. by rewrite Henc.
  - intros ps vectors Hne Henc Hadd. unfold VectorIndex.build.
    destruct ps as [|p ps]; [done|]. simpl. by rewrite Henc, Hadd.
  - intros fs ip pp f g Hi Hp Hread. unfold VectorIndex.load, VectorIndex.path_exists.
    rewrite Hi, Hp. simpl. by rewrite Hread.
  - intros fs ip pp f g a Hi Hp Hread Hjson.
    unfold VectorIndex.load, VectorIndex.path_exists.
    rewrite Hi, Hp. simpl. by rewrite Hread, Hjson.
  - intros q top_k [a Hidx] Henc. unfold VectorIndex.query. by rewrite Hidx, Henc.
  - intros q top_k a q_vec Hidx Henc Hsearch. unfold VectorIndex.query.
    rewrite Hidx, Henc. simpl. by rewrite Hsearch.
  - intros fs ip pp [a Hidx] Hi. unfold VectorIndex.save. by rewrite Hidx, Hi.
  - intros fs ip pp [a Hidx] Hi Hp. unfold VectorIndex.save. by rewrite Hidx, Hi, Hp.
Qed.

(** C7 at the index of three passages: a [build] whose encoder fails, and a
    [load] whose passages file does not parse. *)
Lemma failed_build_state_witness :
  VectorIndex.build Toy.three [T "closing balance after all fees"]
  = (raise (LibraryError "encode"),
     {| VectorIndex.model_name := VectorIndex.model_name Toy.three;
        VectorIndex.index := VectorIndex.index Toy.three;
        VectorIndex.passages := [T "closing balance after all fees"] |})
  ∧ VectorIndex.load
      {[ T "rag.index" := VectorIndex.IndexFile (B := Toy.backend) [15; 4];
         T "passages.json" := VectorIndex.OtherFile ]}
      Toy.three (T "rag.index") (T "passages.json")
    = (raise (LibraryError "json.load"),
       VectorIndex.Make (B := Toy.backend) (VectorIndex.model_name Toy.three)
         (Some [15; 4]) (VectorIndex.passages Toy.three)).
Proof.
  destruct (failed_build_state Toy.backend Toy.three)
    as (Hencode & _ & _ & Hjson & _).
  split.
  - apply (Hencode [T "closing balance after all fees"]).
    + discriminate.
    + reflexivity.
  - apply (Hjson _ _ _ (VectorIndex.IndexFile (B := Toy.backend) [15; 4])
             VectorIndex.OtherFile); reflexivity.
Defined.

(** C7 as the specification words it fails: the failed [build] has replaced
    the passages of an index that still searches the old vectors. *)
Lemma failed_build_changes_passages :
  let r := VectorIndex.build Toy.three [T "closing balance after all fees"] in
  r.1 = raise (LibraryError "encode")
  ∧ VectorIndex.passages Toy.three
    = [T "opening balance"; T "fees"; T "closing balance 500"]
  ∧ VectorIndex.passages r.2 = [T "closing balance after all fees"]
  ∧ VectorIndex.passages r.2 ≠ VectorIndex.passages Toy.three.
Proof. repeat split; by vm_compute. Qed.

(* ===================================================================== *)
(** ** Merging *)
(* ===================================================================== *)

Section MergeFacts.

Import VectorIndex Merge.

Lemma filter_not_in_union (p : text) (seen : gset text) (l : list text) :
  filter (λ x, x ∉ {[p]} ∪ seen) l = filter (λ x, x ∉ seen) (filter (λ x, x ≠ p) l).
Proof.
  rewrite list_filter_filter. apply list_filter_iff. intros x.
  rewrite not_elem_of_union, not_elem_of_singleton. tauto.
Qed.

Lemma filter_not_in_drop (p : text) (seen : gset text) (l : list text) :
  p ∈ seen →
  filter (λ x, x ∉ seen) (filter (λ x, x ≠ p) l) = filter (λ x, x ∉ seen) l.
Proof.
  intros Hp. rewrite list_filter_filter. apply list_filter_iff. intros x.
  split; [tauto|]. intros Hx. split; [done|]. by intros ->.
Qed.

Lemma dedupe_loop_keep_first (l : list text) seen deduped :
  dedupe_loop seen deduped l
  = deduped ++ filter (λ x, x ∉ seen) (keep_first l).
Proof.
  revert seen deduped. induction l as [|p l IH]; intros seen deduped; simpl.
  - by rewrite app_nil_r.
  - destruct (decide (p ∈ seen)) as [Hin|Hout].
    + rewrite IH, filter_cons_False by tauto.
      by rewrite filter_not_in_drop.
    + rewrite IH, filter_cons_True by done.
      rewrite <- app_assoc. simpl. by rewrite filter_not_in_union.
Qed.

Lemma dedupe_keep_first (l : list text) : dedupe l = keep_first l.
Proof.
  unfold dedupe. rewrite dedupe_loop_keep_first. simpl.
  induction (keep_first l) as [|x k IH]; [done|].
  rewrite filter_cons_True by set_solver. by rewrite IH.
Qed.

Lemma keep_first_elem_of (l : list text) x : x ∈ keep_first l ↔ x ∈ l.
Proof.
  induction l as [|p l IH]; simpl; [done|].
  rewrite !elem_of_cons, list_elem_of_filter, IH.
  destruct (decide (x = p)); tauto.
Qed.

Lemma keep_first_nodup (l : list text) : NoDup (keep_first l).
Proof.
  induction l as [|p l IH]; simpl; [constructor|].
  apply NoDup_cons. split.
  - rewrite list_elem_of_filter. tauto.
  - by apply NoDup_filter.
Qed.

Lemma keep_first_abbc (a b c : text) :
  a ≠ b → b ≠ c → a ≠ c → keep_first ([a; b] ++ [b; c]) = [a; b; c].
Proof.
  intros Hab Hbc Hac. simpl.
  repeat first
    [ rewrite filter_nil
    | rewrite filter_cons_True by congruence
    | rewrite filter_cons_False by (intros H; by apply H) ].
  reflexivity.
Qed.

End MergeFacts.

(** C8.  The passages handed to [build] on a merge are the existing
    passages followed by the uploaded ones, with every text kept at its
    first occurrence only; the merged index is built from them on a new
    object; and for existing passages [a, b] and uploaded passages [b, c],
    three different texts, they are exactly [a, b, c]. *)
Theorem merge_keeps_first (B : VectorIndex.Backend) :
  (∀ e u : VectorIndex.t,
     Merge.merge_passages e u
     = Merge.keep_first (VectorIndex.passages e ++ VectorIndex.passages u)
     ∧ NoDup (Merge.merge_passages e u)
     ∧ ∀ x, x ∈ Merge.merge_passages e u
            ↔ x ∈ VectorIndex.passages e ∨ x ∈ VectorIndex.passages u)
  ∧ (∀ ss (e u : VectorIndex.t),
       Merge.emb ss = Some e → VectorIndex.passages e ≠ [] →
       Merge.upload_index ss u
       = match VectorIndex.build (VectorIndex.init (VectorIndex.model_name e))
                 (Merge.merge_passages e u) with
         | (inl _, _) => ss
         | (inr _, new_emb) =>
             Merge.Session (Some new_emb) true
               (length (VectorIndex.passages new_emb))
         end)
  ∧ (∀ (e u : VectorIndex.t) a b c,
       a ≠ b → b ≠ c → a ≠ c →
       VectorIndex.passages e = [a; b] → VectorIndex.passages u = [b; c] →
       Merge.merge_passages e u = [a; b; c]).
Proof.
  split; [|split].
  - intros e u. unfold Merge.merge_passages. rewrite dedupe_keep_first.
    split; [done|]. split; [apply keep_first_nodup|].
    intros x. by rewrite keep_first_elem_of, elem_of_app.
  - intros ss e u Hemb Hne. unfold Merge.upload_index. rewrite Hemb.
    destruct (VectorIndex.passages e) eqn:Hp; [done|]. simpl length.
    cbv iota. simpl Nat.eqb. cbv iota. unfold Merge.merge_passages.
    by rewrite Hp.
  - intros e u a b c Hab Hbc Hac He Hu. unfold Merge.merge_passages.
    rewrite dedupe_keep_first, He, Hu. by apply keep_first_abbc.
Qed.

(** C8 at two overlapping pairs of labels. *)
Lemma merge_keeps_first_witness :
  Merge.merge_passages
    (VectorIndex.Make (B := Toy.backend) VectorIndex.default_model
       (Some [15; 4]) [T "opening balance"; T "fees"])
    (VectorIndex.Make (B := Toy.backend) VectorIndex.default_model
       (Some [4; 19]) [T "fees"; T "closing balance 500"])
  = [T "opening balance"; T "fees"; T "closing balance 500"].
Proof.
  destruct (merge_keeps_first Toy.backend) as (_ & _ & H).
  apply H; [discriminate | discriminate | discriminate | reflexivity | reflexivity].
Defined.


(* ===================================================================== *)
(** ** Ingestion *)
(* ===================================================================== *)

Section IngestFacts.

Import Ingest.
Context {W : World}.
Variable use_selectable_text : bool.
Variable max_tokens_per_chunk overlap_tokens : Z.

Local Abbreviation loop :=
  (ingest_loop use_selectable_text max_tokens_per_chunk overlap_tokens).

Lemma ingest_loop_app l1 l2 printed acc :
  loop (l1 ++ l2) printed acc
  = match loop l1 printed acc with
    | (pr, inr m) => loop l2 pr m
    | (pr, inl e) => (pr, inl e)
    end.
Proof.
  revert printed acc. induction l1 as [|p l1 IH]; intros printed acc; simpl.
  - reflexivity.
  - destruct (negb (file_exists (abspath p))); [apply IH|].
    match goal with |- context [match ?one with inl _ => _ | inr _ => _ end] =>
      destruct one as [e|m]; [reflexivity | apply IH] end.
Qed.

Lemma ingest_loop_result l printed printed' acc :
  (loop l printed acc).2 = (loop l printed' acc).2.
Proof.
  revert printed printed' acc.
  induction l as [|p l IH]; intros printed printed' acc; simpl.
  - reflexivity.
  - destruct (negb (file_exists (abspath p))); [apply IH|].
    match goal with |- context [match ?one with inl _ => _ | inr _ => _ end] =>
      destruct one as [e|m]; [reflexivity | apply IH] end.
Qed.

Lemma ingest_loop_printed l printed acc x :
  x ∈ printed → x ∈ (loop l printed acc).1.
Proof.
  revert printed acc. induction l as [|p l IH]; intros printed acc Hx; simpl.
  - exact Hx.
  - destruct (negb (file_exists (abspath p))).
    + apply IH. apply elem_of_app. by left.
    + match goal with |- context [match ?one with inl _ => _ | inr _ => _ end] =>
        destruct one as [e|m]; [exact Hx | by apply IH] end.
Qed.

End IngestFacts.

(** C9, as the code has it.  A path that does not exist is skipped: the
    call returns what it returns for the batch without that path, and,
    unless a document before it already ended the call with an exception,
    the warning for it is printed. *)
Theorem missing_path_skipped (W : Ingest.World) use_selectable_text
    max_tokens_per_chunk overlap_tokens (before : list text) p after :
  Ingest.file_exists (Ingest.abspath p) = false →
  let ingest := Ingest.ingest_files use_selectable_text max_tokens_per_chunk
                  overlap_tokens in
  (ingest (before ++ p :: after)).2 = (ingest (before ++ after)).2
  ∧ ∀ m, (ingest before).2 = ok m →
         Ingest.warn_not_found (Ingest.abspath p) ∈ (ingest (before ++ p :: after)).1.
Proof.
  intros Hmissing ingest. unfold ingest, Ingest.ingest_files.
  rewrite !ingest_loop_app.
  destruct (Ingest.ingest_loop _ _ _ before [] []) as [pr [e|m]] eqn:Hbefore.
  - split; [reflexivity|]. intros m H. discriminate.
  - simpl. rewrite Hmissing. simpl. split.
    + apply ingest_loop_result.
    + intros _ _. apply ingest_loop_printed. apply elem_of_app. right. left.
Qed.

(** C9 at a batch with a missing statement between two documents. *)
Lemma missing_path_skipped_witness :
  let ingest := Ingest.ingest_files (W := ToyWorld.world) true 800 150 in
  (ingest ([T "/in/st.pdf"] ++ T "/in/gone.pdf" :: [T "/in/scan.png"])).2
  = (ingest ([T "/in/st.pdf"] ++ [T "/in/scan.png"])).2
  ∧ ∀ m, (ingest [T "/in/st.pdf"]).2 = ok m →
         Ingest.warn_not_found (T "/in/gone.pdf")
         ∈ (ingest ([T "/in/st.pdf"] ++ T "/in/gone.pdf" :: [T "/in/scan.png"])).1.
Proof.
  apply (missing_path_skipped ToyWorld.world true 800 150
           [T "/in/st.pdf"] (T "/in/gone.pdf") [T "/in/scan.png"]).
  by vm_compute.
Defined.

(** C9 as the specification words it fails: a file that is neither a PDF
    nor an image ends the whole call with the exception of [Image.open],
    and the receipt after it is never read. *)
Lemma unsupported_file_aborts_batch :
  let ingest := Ingest.ingest_files (W := ToyWorld.world) true 800 150 in
  ingest [T "/in/notes.txt"; T "/in/scan.png"]
  = ([], raise (LibraryError "Image.open"))
  ∧ bind (ingest [T "/in/scan.png"]).2 (λ m, ok (map Chunking.label m))
    = ok [T "(source:scan.png page:1 chunk:1)" ++ ["010"%char] ++ T "Paid in full."].
Proof. split; by vm_compute. Qed.

(* ===================================================================== *)
(** * Further properties *)
(* ===================================================================== *)

(** ** Words *)

Section WordFacts.

Lemma split_ws_space acc (a : text) c b :
  Py.isspace c = true →
  Py.split_ws acc (a ++ c :: b) = Py.split_ws acc a ++ Py.split b.
Proof.
  intros Hc. revert acc. induction a as [|x a IH]; intros acc; simpl.
  - rewrite Hc. by destruct acc.
  - destruct (Py.isspace x); [destruct acc|]; simpl; by rewrite IH.
Qed.

Lemma split_app_space (a : text) c b :
  Py.isspace c = true → Py.split (a ++ c :: b) = Py.split a ++ Py.split b.
Proof. apply split_ws_space. Qed.

Lemma split_ws_leading (w1 a : text) :
  Forall (λ c, Py.isspace c = true) w1 →
  Py.split_ws [] (w1 ++ a) = Py.split_ws [] a.
Proof. induction 1 as [|c w1 Hc _ IH]; simpl; [done|]. by rewrite Hc. Qed.

Lemma split_ws_blank acc (w2 : text) :
  Forall (λ c, Py.isspace c = true) w2 →
  Py.split_ws acc w2 = Py.split_ws acc [].
Proof.
  intros H. revert acc. induction H as [|c w2 Hc _ IH]; intros acc; simpl; [done|].
  rewrite Hc. destruct acc; rewrite IH; reflexivity.
Qed.

Lemma split_ws_trailing acc (a w2 : text) :
  Forall (λ c, Py.isspace c = true) w2 →
  Py.split_ws acc (a ++ w2) = Py.split_ws acc a.
Proof.
  intros H. revert acc. induction a as [|x a IH]; intros acc; simpl.
  - by apply split_ws_blank.
  - destruct (Py.isspace x); [destruct acc|]; by rewrite IH.
Qed.

Lemma split_strip (s : text) : Py.split (Py.strip s) = Py.split s.
Proof.
  destruct (strip_decompose s) as (w1 & w2 & Hs & Hw1 & Hw2).
  rewrite Hs at 2. unfold Py.split.
  by rewrite split_ws_leading, split_ws_trailing.
Qed.

Lemma split_join (l : list text) : Py.split (Py.join sp l) = words_of l.
Proof.
  unfold words_of. induction l as [|x l IH]; [done|].
  destruct l as [|y l].
  - simpl. by rewrite app_nil_r.
  - change (Py.join sp (x :: y :: l)) with (x ++ " "%char :: Py.join sp (y :: l)).
    rewrite split_app_space by done. rewrite IH. reflexivity.
Qed.

Lemma words_of_nil : words_of [] = [].
Proof. reflexivity. Qed.

Lemma words_of_singleton (t : text) : words_of [t] = Py.split t.
Proof. unfold words_of. simpl. apply app_nil_r. Qed.

Lemma words_of_cons (t : text) l : words_of (t :: l) = Py.split t ++ words_of l.
Proof. reflexivity. Qed.

Lemma words_of_app (l1 l2 : list text) :
  words_of (l1 ++ l2) = words_of l1 ++ words_of l2.
Proof. unfold words_of. by rewrite map_app, concat_app. Qed.

Lemma words_of_chunk (g : list text) :
  Py.split (Py.strip (Py.join sp g)) = words_of g.
Proof. by rewrite split_strip, split_join. Qed.

Lemma split_ws_words (s acc : text) w :
  Forall (λ c, Py.isspace c = false) acc → w ∈ Py.split_ws acc s → word w.
Proof.
  revert acc. induction s as [|c s IH]; intros acc Hacc; simpl.
  - destruct acc as [|a acc]; [by intros ?%elem_of_nil|].
    intros ->%list_elem_of_singleton. split.
    + intros H. apply (f_equal (@length _)) in H.
      rewrite length_rev in H. discriminate.
    + by apply Forall_rev.
  - destruct (Py.isspace c) eqn:Hc.
    + destruct acc as [|a acc]; [by apply IH|].
      intros [->|Hw]%elem_of_cons; [|by apply (IH [])]. split.
      * intros H. apply (f_equal (@length _)) in H.
        rewrite length_rev in H. discriminate.
      * by apply Forall_rev.
    + apply IH. by constructor.
Qed.

Lemma split_elem_word (s : text) w : w ∈ Py.split s → word w.
Proof. by apply split_ws_words. Qed.

Lemma split_ws_word acc (w : text) :
  Forall (λ c, Py.isspace c = false) w → acc ≠ [] ∨ w ≠ [] →
  Py.split_ws acc w = [rev acc ++ w].
Proof.
  intros H. revert acc. induction H as [|c w Hc _ IH]; intros acc Hne; simpl.
  - destruct acc; [by destruct Hne|]. by rewrite app_nil_r.
  - rewrite Hc, IH by (by left). simpl. by rewrite <- app_assoc.
Qed.

Lemma split_word (w : text) : word w → Py.split w = [w].
Proof. intros [Hne Hw]. unfold Py.split. rewrite split_ws_word; auto. Qed.

Lemma split_word_sp (w : text) : word w → Py.split (w ++ sp) = [w].
Proof.
  intros Hw. change (w ++ sp) with (w ++ " "%char :: []).
  rewrite split_app_space by done. by rewrite split_word.
Qed.

Lemma words_of_words (l : list text) : Forall word l → words_of l = l.
Proof.
  unfold words_of. induction 1 as [|w l Hw _ IH]; simpl; [done|].
  by rewrite split_word, IH.
Qed.

Lemma split_all_words (s : text) : Forall word (Py.split s).
Proof. apply Forall_forall. intros w. apply split_elem_word. Qed.

Lemma fallback_word (w : text) : word w → fallback_tokens (w ++ sp) = 1.
Proof. intros Hw. unfold fallback_tokens. by rewrite split_word_sp. Qed.

Lemma word_inked (w : text) : word w → inked w.
Proof.
  intros [Hne Hw]. destruct w as [|c w]; [done|].
  exists c. split; [left|]. by apply Forall_cons in Hw as [? _].
Qed.

Lemma inked_strip (s : text) : inked s → inked (Py.strip s).
Proof.
  intros (c & Hin & Hc). exists c. split; [|done].
  destruct (strip_decompose s) as (w1 & w2 & Hs & Hw1 & Hw2).
  rewrite Hs in Hin. rewrite !elem_of_app in Hin. rewrite !Forall_forall in *.
  destruct Hin as [Hin|[Hin|Hin]]; [apply Hw1 in Hin|done|apply Hw2 in Hin];
    congruence.
Qed.

Lemma strip_inked (s : text) : Py.strip s ≠ [] → inked (Py.strip s).
Proof.
  unfold Py.strip. intros Hne.
  destruct (Py.lstrip s) as [|c r] eqn:Hl; [done|].
  pose proof (lstrip_head _ _ _ Hl) as Hc.
  destruct (rstrip_cons c r Hc) as (r' & ->). exists c. split; [left | done].
Qed.

Lemma join_elem_of (l : list text) x c : x ∈ l → c ∈ x → c ∈ Py.join sp l.
Proof.
  induction l as [|y l IH]; [by intros ?%elem_of_nil|].
  intros [->|Hx]%elem_of_cons Hc.
  - destruct l; simpl; [done|]. apply elem_of_app. by left.
  - destruct l as [|z l]; [by apply elem_of_nil in Hx|].
    change (Py.join sp (y :: z :: l)) with (y ++ sp ++ Py.join sp (z :: l)).
    rewrite !elem_of_app. right. right. by apply IH.
Qed.

Lemma inked_join (l : list text) x : x ∈ l → inked x → inked (Py.join sp l).
Proof.
  intros Hx (c & Hc & Hsp). exists c. split; [|done]. by eapply join_elem_of.
Qed.

Lemma inked_split (s : text) : inked s → Py.split s ≠ [].
Proof. intros (c & Hin & Hc). by eapply split_nonempty. Qed.

End WordFacts.

(** ** Sentences *)

Lemma sent_split_words (s acc : text) (prev_term in_sep : bool) :
  (in_sep = true → acc = []) →
  words_of (sent_split acc prev_term in_sep s) = Py.split (rev acc ++ s).
Proof.
  revert acc prev_term in_sep.
  induction s as [|c s IH]; intros acc pt in_sep Hsep; simpl.
  - unfold words_of. simpl. by rewrite !app_nil_r.
  - destruct (Py.isspace c) eqn:Hc.
    + destruct in_sep.
      * rewrite (Hsep eq_refl), IH by done. simpl. unfold Py.split. simpl.
        by rewrite Hc.
      * destruct pt.
        -- change (words_of (rev acc :: sent_split [] false true s))
             with (Py.split (rev acc) ++ words_of (sent_split [] false true s)).
           rewrite IH by done. simpl. by rewrite split_app_space.
        -- rewrite IH by done. simpl. by rewrite <- app_assoc.
    + rewrite IH by done. simpl. by rewrite <- app_assoc.
Qed.

Lemma words_of_trimmed (l : list text) :
  words_of (filter (λ s, Py.truthy s) (map Py.strip l)) = words_of l.
Proof.
  induction l as [|x l IH]; [done|]. simpl map.
  change (words_of (x :: l)) with (Py.split x ++ words_of l).
  rewrite <- (split_strip x), <- IH.
  destruct (Py.strip x) as [|c r] eqn:Hx.
  - by rewrite filter_cons_False by (by intros ?).
  - by rewrite filter_cons_True by done.
Qed.

Lemma split_into_sentences_words (page : text) :
  words_of (split_into_sentences page) = Py.split page.
Proof.
  unfold split_into_sentences. rewrite <- (split_strip page).
  destruct (Py.strip page) as [|c t] eqn:Hp; [done|]. simpl Py.truthy. cbv iota.
  rewrite words_of_trimmed. unfold re_split. by rewrite sent_split_words.
Qed.

Lemma split_into_sentences_inked (page : text) s :
  s ∈ split_into_sentences page → s ≠ [] ∧ Py.strip s = s ∧ inked s.
Proof.
  unfold split_into_sentences.
  destruct (Py.truthy (Py.strip page)); [|by intros ?%elem_of_nil].
  intros [Hne Hin]%list_elem_of_filter.
  apply list_elem_of_fmap in Hin as (y & -> & _).
  assert (Py.strip y ≠ []) as Hne' by (by destruct (Py.strip y)).
  split; [done|]. split; [apply strip_idem | by apply strip_inked].
Qed.

(** X1.  Every sentence returned by [split_into_sentences] is non-empty,
    is already trimmed and has a character that is not whitespace. *)
Theorem sentences_trimmed (page : text) :
  Forall (λ s, s ≠ [] ∧ Py.strip s = s ∧ inked s) (split_into_sentences page).
Proof. apply Forall_forall. intros s. apply split_into_sentences_inked. Qed.

(** X2.  Sentence splitting keeps the words of the page: the words of the
    sentences, read in order, are the words of the page. *)
Theorem sentences_keep_words (page : text) :
  concat (map Py.split (split_into_sentences page)) = Py.split page.
Proof. apply split_into_sentences_words. Qed.

(** ** Words through the packing loop *)

Section PackWords.

Variable tk : tokenizer.
Variable max_tokens : Z.
Variable encoder_name : text.

Local Abbreviation buffer_words :=
  (λ b : buffer, words_of (chunks b) ++ words_of (cur b)).

Lemma flush_words b : buffer_words (flush b) = buffer_words b.
Proof.
  unfold flush. cbn [chunks cur]. destruct (cur b) as [|x l] eqn:Hc.
  - reflexivity.
  - cbn [Py.truthy]. rewrite words_of_app, words_of_singleton, words_of_chunk.
    by rewrite words_of_nil, app_nil_r.
Qed.

Lemma split_words_words ws out piece pt :
  Forall word ws → Forall word piece →
  match split_words tk max_tokens encoder_name ws out piece pt with
  | (out', piece', _) =>
      Forall word piece' ∧ words_of out' ++ piece' = words_of out ++ piece ++ ws
  end.
Proof.
  intros Hws. revert out piece pt.
  induction Hws as [|w ws Hw _ IH]; intros out piece pt Hpiece; simpl.
  - by rewrite app_nil_r.
  - destruct (_ >? _).
    + specialize (IH (out ++ [Py.strip (Py.join sp piece)]) [w]
                    (tokens_length tk (w ++ sp) encoder_name)).
      destruct (split_words _ _ _ _ _ _ _) as [[out' piece'] pt'].
      destruct IH as [Hp Heq]; [by constructor|]. split; [done|].
      rewrite Heq, words_of_app, words_of_singleton.
      rewrite words_of_chunk, (words_of_words piece) by done.
      by rewrite <- !app_assoc.
    + specialize (IH out (piece ++ [w])
                    (pt + tokens_length tk (w ++ sp) encoder_name)).
      destruct (split_words _ _ _ _ _ _ _) as [[out' piece'] pt'].
      destruct IH as [Hp Heq].
      { apply Forall_app. split; [done | by constructor]. }
      split; [done|]. by rewrite Heq, <- !app_assoc.
Qed.

Lemma push_words b (t : text) n :
  buffer_words {| chunks := chunks b; cur := cur b ++ [t]; cur_tokens := n |}
  = buffer_words b ++ Py.split t.
Proof.
  cbn [chunks cur]. by rewrite words_of_app, words_of_singleton, app_assoc.
Qed.

Lemma pack_sentence_words b sent :
  buffer_words (pack_sentence tk max_tokens encoder_name b sent)
  ≡ₚ buffer_words b ++ Py.split sent.
Proof.
  unfold pack_sentence. destruct (_ >? _).
  - pose proof (split_words_words (Py.split sent) (chunks b) [] 0
                  (split_all_words sent) (List.Forall_nil _)) as Hsw.
    destruct (split_words _ _ _ _ _ _ _) as [[out piece] pt].
    destruct Hsw as [Hp Heq]. simpl in Heq.
    set (b1 := {| chunks := out; cur := cur b; cur_tokens := cur_tokens b |}).
    assert (Hb1 : buffer_words b1 ++ piece ≡ₚ buffer_words b ++ Py.split sent).
    { unfold b1. cbn [chunks cur].
      rewrite <- (app_assoc (words_of out)).
      rewrite (Permutation_app_comm (words_of (cur b)) piece).
      rewrite app_assoc, Heq, <- !app_assoc.
      apply Permutation_app_head, Permutation_app_comm. }
    destruct (decide (piece = [])) as [->|Hne].
    { simpl Py.truthy. cbv iota. by rewrite app_nil_r in Hb1. }
    assert (Py.truthy piece = true) as -> by (by destruct piece).
    assert (Hj : Py.split (Py.join sp piece) = piece)
      by (by rewrite split_join, words_of_words).
    destruct (_ <=? _).
    + rewrite (push_words b1), Hj. exact Hb1.
    + rewrite (push_words (flush b1)), flush_words, Hj. exact Hb1.
  - destruct (_ <=? _).
    + by rewrite push_words.
    + by rewrite (push_words (flush b)), flush_words.
Qed.

Lemma fold_pack_words (l : list text) b :
  buffer_words (fold_left (pack_sentence tk max_tokens encoder_name) l b)
  ≡ₚ buffer_words b ++ words_of l.
Proof.
  revert b. induction l as [|s l IH]; intros b; simpl.
  - by rewrite words_of_nil, app_nil_r.
  - rewrite IH, pack_sentence_words, words_of_cons.
    by rewrite <- !app_assoc.
Qed.

Lemma pack_words (sentences : list text) :
  words_of (pack tk max_tokens encoder_name sentences) ≡ₚ words_of sentences.
Proof.
  unfold pack.
  set (b := fold_left _ sentences _).
  assert (Hb : buffer_words (flush b) = words_of (chunks (flush b))).
  { unfold flush. cbn [chunks cur]. by rewrite words_of_nil, app_nil_r. }
  rewrite <- Hb, flush_words. unfold b. rewrite fold_pack_words.
  reflexivity.
Qed.

End PackWords.

Lemma number_chunks_ptext src pg i (cs : list text) :
  map ptext (number_chunks src pg i cs) = cs.
Proof.
  revert i. induction cs as [|c cs IH]; intros i; simpl; [done|]. by rewrite IH.
Qed.

Lemma number_chunks_lookup src pg k (cs : list text) i :
  number_chunks src pg k cs !! i
  = (λ c, Passage src pg (k + Z.of_nat i) c
            (make_label src pg (k + Z.of_nat i) c)) <$> cs !! i.
Proof.
  revert k i. induction cs as [|c cs IH]; intros k i; [done|].
  destruct i as [|i]; simpl.
  - by rewrite Z.add_0_r.
  - rewrite IH. by replace (k + 1 + Z.of_nat i) with (k + Z.pos (Pos.of_succ_nat i)) by lia.
Qed.

Lemma pack_nil tk max_tokens enc : pack tk max_tokens enc [] = [].
Proof. reflexivity. Qed.

Lemma chunk_sentences_zero tk max_tokens enc (sentences : list text) ov :
  ov ≤ 0 →
  chunk_sentences_to_chunks tk max_tokens enc sentences ov
  = pack tk max_tokens enc sentences.
Proof.
  intros Hov. unfold chunk_sentences_to_chunks, add_overlap.
  destruct sentences; [done|]. simpl Py.truthy. cbv iota.
  by assert ((ov >? 0) = false) as -> by lia.
Qed.

(** X3.  Packing never drops or repeats a word: for every token counter and
    every [max_tokens], the words of the chunks made without overlap are
    the words of the sentences, each as often as it occurs, though not
    always in the same order; so the passages of a page hold exactly the
    words of the page. *)
Theorem pack_keeps_words tk max_tokens enc :
  (∀ sentences : list text,
     concat (map Py.split
               (chunk_sentences_to_chunks tk max_tokens enc sentences 0))
     ≡ₚ concat (map Py.split sentences))
  ∧ (∀ page src page_no,
       concat (map (λ p, Py.split (ptext p))
                 (chunk_page_text tk max_tokens enc page src page_no 0))
       ≡ₚ Py.split page).
Proof.
  assert (H : ∀ sentences : list text,
            words_of (chunk_sentences_to_chunks tk max_tokens enc sentences 0)
            ≡ₚ words_of sentences).
  { intros sentences. rewrite chunk_sentences_zero by lia. apply pack_words. }
  split; [exact H|].
  intros page src pg. unfold chunk_page_text.
  rewrite <- (split_into_sentences_words page), <- H.
  unfold words_of. by rewrite <- (map_map ptext Py.split), number_chunks_ptext.
Qed.

Lemma words_of_groups (groups : list (list text)) :
  words_of (map (λ g, Py.strip (Py.join sp g)) groups) = words_of (concat groups).
Proof.
  induction groups as [|g gs IH]; [done|]. simpl map. simpl concat.
  by rewrite words_of_cons, words_of_app, words_of_chunk, IH.
Qed.

(** X4.  Where no sentence of the page counts more than [max_tokens]
    tokens, the chunks made without overlap hold the words of the page in
    the order of the page. *)
Theorem short_sentences_keep_order tk max_tokens enc (page src : text) page_no :
  (∀ s, s ∈ split_into_sentences page → tokens_length tk s enc ≤ max_tokens) →
  concat (map (λ p, Py.split (ptext p))
            (chunk_page_text tk max_tokens enc page src page_no 0))
  = Py.split page.
Proof.
  intros Hshort. unfold chunk_page_text.
  rewrite <- (map_map ptext Py.split), number_chunks_ptext.
  rewrite chunk_sentences_zero by lia.
  destruct (pack_short_sentences_in_order tk max_tokens enc _ Hshort)
    as (groups & Hcat & _ & Hpack).
  fold (words_of (pack tk max_tokens enc (split_into_sentences page))).
  by rewrite Hpack, words_of_groups, Hcat, split_into_sentences_words.
Qed.

(** X4 at the three-sentence statement page. *)
Lemma short_sentences_keep_order_witness :
  concat (map (λ p, Py.split (ptext p))
            (chunk_page_text None 10 (T "gpt2")
               (T "Alpha bank statement. Balance is five hundred rupees. Thank you.")
               (T "doc.pdf") 1 0))
  = Py.split (T "Alpha bank statement. Balance is five hundred rupees. Thank you.").
Proof.
  apply short_sentences_keep_order.
  intros s Hs. vm_compute in Hs.
  repeat (apply elem_of_cons in Hs as [->|Hs]; [by vm_compute|]).
  by apply elem_of_nil in Hs.
Defined.

(** ** Overlap, word by word *)

Lemma last_words_words n (s : text) : Forall word (last_words n (Py.split s)).
Proof.
  unfold last_words. destruct (_ <=? _)%nat; [apply Forall_drop|];
    apply split_all_words.
Qed.

Lemma overlapped_chunk_words ov (prev c : text) :
  Py.split (overlapped_chunk ov prev c)
  = last_words (approx_words ov) (Py.split prev) ++ Py.split c.
Proof.
  unfold overlapped_chunk. rewrite split_join. apply words_of_words.
  apply Forall_app. split; [apply last_words_words | apply split_all_words].
Qed.

(** X5.  After the overlap pass the words of chunk [i+1] are the overlap
    words followed by the words the chunk had before the pass, so dropping
    the first [min(k, n)] words, [k = max(1, floor(overlap_tokens / 1.3))]
    and [n] the number of words of final chunk [i], gives back the words of
    the packed chunk; the pass adds at most [k] words to a chunk. *)
Theorem overlap_can_be_stripped tk max_tokens enc (sentences : list text) ov :
  let packed := pack tk max_tokens enc sentences in
  let out := chunk_sentences_to_chunks tk max_tokens enc sentences ov in
  0 < ov → (2 ≤ length packed)%nat →
  ∀ i prev c final,
    out !! i = Some prev → packed !! S i = Some c → out !! S i = Some final →
    drop (approx_words ov `min` length (Py.split prev)) (Py.split final)
    = Py.split c
    ∧ (length (Py.split final) ≤ approx_words ov + length (Py.split c))%nat.
Proof.
  intros packed out Hov Hlen i prev c final Hprev Hc Hfinal.
  assert (Hout : out = add_overlap ov packed).
  { unfold out, chunk_sentences_to_chunks. destruct sentences; [|done].
    exfalso. unfold packed in Hlen. simpl in Hlen. lia. }
  rewrite Hout in Hprev, Hfinal. unfold add_overlap in Hprev, Hfinal.
  assert ((ov >? 0) && (1 <? length packed)%nat = true) as Hguard.
  { apply andb_true_intro. split; [lia | by apply Nat.ltb_lt]. }
  rewrite Hguard in Hprev, Hfinal.
  destruct packed as [|c0 rest]; [simpl in Hlen; lia|].
  rewrite overlap_loop_from in Hprev, Hfinal by done.
  simpl in Hprev, Hfinal, Hc.
  rewrite (overlap_from_lookup ov rest c0 i prev c Hprev Hc) in Hfinal.
  injection Hfinal as <-. rewrite overlapped_chunk_words.
  pose proof (last_words_length (approx_words ov) (Py.split prev)) as Hl.
  split.
  - rewrite <- Hl. by rewrite drop_app_length.
  - rewrite length_app, Hl. lia.
Qed.

(** X5 at three one-word sentences packed one per chunk: the third chunk
    "a. b. c." after the second chunk "a. b.". *)
Lemma overlap_can_be_stripped_witness :
  drop (approx_words 150 `min` length (Py.split (T "a. b.")))
    (Py.split (T "a. b. c."))
  = Py.split (T "c.")
  ∧ (length (Py.split (T "a. b. c."))
     ≤ approx_words 150 + length (Py.split (T "c.")))%nat.
Proof.
  apply (overlap_can_be_stripped None 1 (T "gpt2")
           (split_into_sentences (T "a. b. c.")) 150
           ltac:(lia) ltac:(vm_compute; lia) 1%nat);
    by vm_compute.
Defined.

(** X6.  The overlap pass never changes the number of chunks nor the first
    chunk, and it changes nothing at all when [overlap_tokens] is not
    positive or when there is at most one chunk. *)
Theorem overlap_keeps_count tk max_tokens enc (sentences : list text) ov :
  let packed := pack tk max_tokens enc sentences in
  let out := chunk_sentences_to_chunks tk max_tokens enc sentences ov in
  length out = length packed
  ∧ out !! 0%nat = packed !! 0%nat
  ∧ (ov ≤ 0 ∨ (length packed ≤ 1)%nat → out = packed).
Proof.
  intros packed out.
  assert (Hout : out = add_overlap ov packed).
  { unfold out, packed, chunk_sentences_to_chunks.
    destruct sentences; [|done]. unfold add_overlap. simpl.
    by rewrite andb_false_r. }
  rewrite Hout. split; [apply add_overlap_length|].
  unfold add_overlap. split.
  - destruct (_ && _); [|done]. destruct packed as [|c0 rest]; [done|].
    by rewrite overlap_loop_from.
  - intros [Hov|Hone].
    + by assert ((ov >? 0) = false) as -> by lia.
    + assert ((1 <? length packed)%nat = false) as -> by (by apply Nat.ltb_ge).
      by rewrite andb_false_r.
Qed.

(** X6 at a page that fits one chunk. *)
Lemma overlap_keeps_count_witness :
  let sentences := split_into_sentences (T "Alpha bank statement. Thank you.") in
  chunk_sentences_to_chunks None 800 (T "gpt2") sentences 150
  = pack None 800 (T "gpt2") sentences.
Proof.
  intros sentences.
  destruct (overlap_keeps_count None 800 (T "gpt2") sentences 150) as (_ & _ & H).
  apply H. right. vm_compute. lia.
Defined.

(** X7.  The passages of a page are its chunks in order: the passage at
    position [i] (from 0) carries the source and page it was given, chunk
    index [i + 1], the text of chunk [i], and as label the header of these
    fields followed by a newline and the text. *)
Theorem passages_numbered tk max_tokens enc (page src : text) page_no ov i :
  chunk_page_text tk max_tokens enc page src page_no ov !! i
  = (λ c, Passage src page_no (Z.of_nat i + 1) c
            (T "(source:" ++ src ++ T " page:" ++ Py.str_of_int page_no
               ++ T " chunk:" ++ Py.str_of_int (Z.of_nat i + 1) ++ T ")"
               ++ ["010"%char] ++ c))
    <$> chunk_sentences_to_chunks tk max_tokens enc
          (split_into_sentences page) ov !! i.
Proof.
  unfold chunk_page_text. rewrite number_chunks_lookup.
  by replace (1 + Z.of_nat i) with (Z.of_nat i + 1) by lia.
Qed.

(** ** No empty passage *)

Section InkFacts.

Variable tk : tokenizer.
Variable max_tokens : Z.
Variable encoder_name : text.

Lemma within_budget_inked (sentences : list text) c :
  (∀ s, s ∈ sentences → inked s) →
  Budget.within_budget tk max_tokens encoder_name sentences c → inked c.
Proof.
  intros Hs (ps & Hne & Hps & -> & _). apply inked_strip.
  destruct ps as [|p ps]; [done|]. apply Forall_cons in Hps as [Hp _].
  apply (inked_join _ (part_text p)); [left|].
  destruct p as [s|ws]; simpl in *.
  - apply Hs, Hp.
  - destruct Hp as (Hws & s & _ & _ & before & after & Hrun).
    destruct ws as [|w ws]; [done|].
    apply (inked_join _ w); [left|].
    apply word_inked, (split_elem_word s). rewrite Hrun.
    apply elem_of_app. right. left.
Qed.

Lemma overlap_from_elem ov prev (rest : list text) x :
  x ∈ overlap_from ov prev rest →
  ∃ prev' c, c ∈ rest ∧ x = overlapped_chunk ov prev' c.
Proof.
  revert prev. induction rest as [|c rest IH]; intros prev; simpl.
  - by intros ?%elem_of_nil.
  - intros [->|Hx]%elem_of_cons.
    + exists prev, c. split; [left | done].
    + destruct (IH _ Hx) as (p' & c' & Hc' & ->). exists p', c'.
      split; [by right | done].
Qed.

Lemma overlapped_chunk_inked ov (prev c : text) :
  inked c → inked (overlapped_chunk ov prev c).
Proof.
  intros Hc. pose proof (inked_split c Hc) as Hne.
  destruct (Py.split c) as [|w ws] eqn:Hsplit; [done|].
  unfold overlapped_chunk. rewrite Hsplit.
  apply (inked_join _ w).
  - apply elem_of_app. right. left.
  - apply word_inked, (split_elem_word c). rewrite Hsplit. left.
Qed.

Lemma add_overlap_inked ov (cs : list text) :
  Forall inked cs → Forall inked (add_overlap ov cs).
Proof.
  intros Hcs. unfold add_overlap. destruct (_ && _); [|done].
  destruct cs as [|c0 rest]; [done|].
  rewrite overlap_loop_from by done. apply Forall_cons in Hcs as [H0 Hrest].
  simpl. constructor; [done|]. apply Forall_forall. intros x Hx.
  apply overlap_from_elem in Hx as (p' & c & Hc & ->).
  apply overlapped_chunk_inked. rewrite Forall_forall in Hrest. by apply Hrest.
Qed.

Lemma number_chunks_elem src pg i (cs : list text) p :
  p ∈ number_chunks src pg i cs → ptext p ∈ cs.
Proof.
  revert i. induction cs as [|c cs IH]; intros i; simpl.
  - by intros ?%elem_of_nil.
  - intros [->|Hp]%elem_of_cons; [left | right; by eapply IH].
Qed.

Lemma chunk_page_text_inked (page src : text) page_no ov :
  (∀ s w, s ∈ split_into_sentences page →
          tokens_length tk s encoder_name > max_tokens → w ∈ Py.split s →
          tokens_length tk (w ++ sp) encoder_name ≤ max_tokens) →
  Forall (λ p, inked (ptext p))
    (chunk_page_text tk max_tokens encoder_name page src page_no ov).
Proof.
  intros Hwords. unfold chunk_page_text.
  apply Forall_forall. intros p Hp. apply number_chunks_elem in Hp.
  revert Hp. generalize (ptext p). apply Forall_forall.
  unfold chunk_sentences_to_chunks.
  destruct (Py.truthy (split_into_sentences page)); [|constructor].
  apply add_overlap_inked, Forall_forall. intros c Hc.
  apply (within_budget_inked (split_into_sentences page)).
  - intros s Hs. by apply split_into_sentences_inked in Hs as (_ & _ & ?).
  - by apply pack_within_budget.
Qed.

End InkFacts.

(** X8.  No passage is blank as long as no single word of an over-long
    sentence counts more than [max_tokens] tokens: every passage text then
    has a character that is not whitespace.  With the fallback counter a
    word counts one token, so [max_tokens >= 1] is enough. *)
Theorem no_blank_passage (page src : text) page_no ov :
  (∀ tk max_tokens enc,
     (∀ s w, s ∈ split_into_sentences page →
             tokens_length tk s enc > max_tokens → w ∈ Py.split s →
             tokens_length tk (w ++ sp) enc ≤ max_tokens) →
     Forall (λ p, inked (ptext p))
       (chunk_page_text tk max_tokens enc page src page_no ov))
  ∧ (∀ max_tokens enc,
       1 ≤ max_tokens →
       Forall (λ p, inked (ptext p))
         (chunk_page_text None max_tokens enc page src page_no ov)).
Proof.
  split.
  - intros tk M enc. apply chunk_page_text_inked.
  - intros M enc HM. apply chunk_page_text_inked.
    intros s w _ _ Hw. simpl.
    rewrite fallback_word by (by eapply split_elem_word). exact HM.
Qed.

(** X8 at a page whose second sentence has to be split. *)
Lemma no_blank_passage_witness :
  Forall (λ p, inked (ptext p))
    (chunk_page_text None 2 (T "gpt2") (T "A. b c d e.") (T "doc.pdf") 1 150).
Proof.
  destruct (no_blank_passage (T "A. b c d e.") (T "doc.pdf") 1 150) as [_ H].
  apply H. lia.
Defined.

(* ===================================================================== *)
(** ** The vector index, continued *)
(* ===================================================================== *)

Section IndexMore.

Import VectorIndex.
Context {B : Backend}.

Lemma save_frame fs (s : t) ip pp p :
  p ≠ ip → p ≠ pp → (save fs s ip pp).2 !! p = fs !! p.
Proof.
  intros Hi Hp. unfold save.
  destruct (index s); [|done].
  destruct (writable ip); [|done].
  destruct (writable pp); simpl.
  - by rewrite !lookup_insert_ne.
  - by rewrite lookup_insert_ne.
Qed.

Lemma save_ok fs (s : t) ip pp fs' :
  save fs s ip pp = (ok tt, fs') →
  ∃ a, index s = Some a
       ∧ fs' = <[pp := JsonFile (passages s)]> (<[ip := IndexFile a]> fs).
Proof.
  unfold save. destruct (index s) as [a|]; [|discriminate].
  destruct (writable ip); [|discriminate].
  destruct (writable pp); [|discriminate].
  simpl. intros [= <-]. eauto.
Qed.

Lemma build_ok (s : t) ps s' :
  build s ps = (ok tt, s') →
  ps ≠ [] ∧ model_name s' = model_name s ∧ passages s' = ps
  ∧ is_Some (index s').
Proof.
  unfold build. destruct ps as [|p ps]; [discriminate|]. simpl.
  destruct (encode _ _); [|discriminate].
  destruct (add _ _); [|discriminate].
  intros [= <-]. simpl. eauto.
Qed.

End IndexMore.

(** X9.  [save] writes to its two paths only: every other path holds what
    it held before.  When it raises the not-built error nothing is written
    at all; when it returns normally the passages path holds the passage
    list in order and, if the paths differ, the index path holds the search
    structure.  When only the passages file cannot be created the call
    raises after the index file has been written. *)
Theorem save_writes_two_paths (B : VectorIndex.Backend) fs (s : VectorIndex.t)
    ip pp :
  (∀ p, p ≠ ip → p ≠ pp → (VectorIndex.save fs s ip pp).2 !! p = fs !! p)
  ∧ (VectorIndex.index s = None → (VectorIndex.save fs s ip pp).2 = fs)
  ∧ (∀ fs', VectorIndex.save fs s ip pp = (ok tt, fs') →
       fs' !! pp = Some (VectorIndex.JsonFile (VectorIndex.passages s))
       ∧ (ip ≠ pp → VectorIndex.IndexFile <$> VectorIndex.index s = fs' !! ip))
  ∧ (∀ a, VectorIndex.index s = Some a →
       VectorIndex.writable ip = true → VectorIndex.writable pp = false →
       VectorIndex.save fs s ip pp
       = (raise (LibraryError "open"), <[ip := VectorIndex.IndexFile a]> fs)).
Proof.
  split; [intros p; apply save_frame|]. split; [|split].
  - intros Hnone. unfold VectorIndex.save. by rewrite Hnone.
  - intros fs' Hsave. apply save_ok in Hsave as (a & Hidx & ->).
    split; [apply lookup_insert_eq|]. intros Hne.
    rewrite Hidx, lookup_insert_ne by done. simpl. by rewrite lookup_insert_eq.
  - intros a Hidx Hi Hp. unfold VectorIndex.save. by rewrite Hidx, Hi, Hp.
Qed.

(** X9 at the index of three passages saved beside an unrelated file. *)
Lemma save_writes_two_paths_witness :
  let fs : gmap text (VectorIndex.file (B := Toy.backend)) :=
    {[ T "notes.txt" := VectorIndex.OtherFile ]} in
  let saved := VectorIndex.save fs Toy.three (T "rag.index") (T "passages.json") in
  saved.2 !! T "notes.txt" = Some VectorIndex.OtherFile
  ∧ saved.2 !! T "passages.json"
    = Some (VectorIndex.JsonFile (VectorIndex.passages Toy.three)).
Proof.
  intros fs saved.
  destruct (save_writes_two_paths Toy.backend fs Toy.three
              (T "rag.index") (T "passages.json")) as (Hframe & _ & Hok & _).
  split.
  - unfold saved. rewrite Hframe by discriminate. reflexivity.
  - apply (Hok saved.2). reflexivity.
Defined.

(** X10.  [query] returns, in the order of the search, exactly the
    (id, score) pairs of the search whose id lies in [[0, N)], [N] the
    number of passages, each with the passage stored under that id: it
    drops the other pairs and nothing else. *)
Theorem query_keeps_stored_pairs (B : VectorIndex.Backend) (s : VectorIndex.t)
    q top_k a q_vec I0 D0 :
  VectorIndex.index s = Some a →
  VectorIndex.encode (VectorIndex.model_name s) [q] = Some q_vec →
  VectorIndex.search a (VectorIndex.normalize_L2 q_vec) top_k = Some (I0, D0) →
  ∃ hits,
    VectorIndex.query s q top_k = ok hits
    ∧ map (λ h, (VectorIndex.id h, VectorIndex.score h)) hits
      = filter (λ pair, 0 ≤ pair.1 < Z.of_nat (length (VectorIndex.passages s)))
          (combine I0 D0)
    ∧ Forall (λ h, VectorIndex.passages s !! Z.to_nat (VectorIndex.id h)
                   = Some (VectorIndex.passage h)) hits.
Proof.
  intros Hidx Henc Hsearch.
  exists (VectorIndex.collect (VectorIndex.passages s) (combine I0 D0)).
  split; [|split].
  - unfold VectorIndex.query. rewrite Hidx, Henc. simpl. by rewrite Hsearch.
  - apply collect_pairs.
  - apply collect_passages.
Qed.

(** X10 at the index of three passages asked for ten hits. *)
Lemma query_keeps_stored_pairs_witness :
  ∃ hits,
    VectorIndex.query Toy.three (T "balance") 10 = ok hits
    ∧ map (λ h, (VectorIndex.id h, VectorIndex.score h)) hits
      = [(1, (1 # 4)%Q); (0, (1 # 9)%Q); (2, (1 # 13)%Q)].
Proof.
  destruct (query_keeps_stored_pairs Toy.backend Toy.three (T "balance") 10
              [15; 4; 19] [7]
              [1; 0; 2; -1; -1; -1; -1; -1; -1; -1]
              [1 # 4; 1 # 9; 1 # 13; -1000000 # 1; -1000000 # 1; -1000000 # 1;
               -1000000 # 1; -1000000 # 1; -1000000 # 1; -1000000 # 1]%Q)
    as (hits & Hq & Hpairs & _); [by vm_compute..|].
  exists hits. split; [exact Hq|]. rewrite Hpairs. by vm_compute.
Defined.

(** X11.  When [build_index_from_chunks] returns an index, the chunk list
    was not empty, the index holds the labels of the chunks in order, no
    file other than the two index files has changed, and [load_index] on
    the files it leaves returns that same index.  On an empty chunk list it
    raises the empty-input error and writes nothing. *)
Theorem build_index_then_load (B : VectorIndex.Backend) fs chunks_meta :
  (∀ printed emb fs',
     App.build_index_from_chunks fs chunks_meta = (printed, ok emb, fs') →
     chunks_meta ≠ []
     ∧ VectorIndex.passages emb = map Chunking.label chunks_meta
     ∧ (∀ p, p ≠ App.FAISS_PATH → p ≠ App.PASSAGES_PATH → fs' !! p = fs !! p)
     ∧ App.load_index fs' = ([T "[INFO] Loaded index."], ok emb))
  ∧ (App.build_index_from_chunks fs []).1.2
    = raise (ValueError "No passages to index.")
  ∧ (App.build_index_from_chunks fs []).2 = fs.
Proof.
  split; [|by split].
  intros printed emb fs'. unfold App.build_index_from_chunks.
  destruct (VectorIndex.build _ _) as [[e|[]] emb0] eqn:Hbuild; [discriminate|].
  destruct (VectorIndex.save _ _ _ _) as [[e|[]] fs0] eqn:Hsave; [discriminate|].
  intros [= _ <- <-].
  apply build_ok in Hbuild as (Hne & Hmodel & Hps & Hidx).
  pose proof (save_frame fs emb0 App.FAISS_PATH App.PASSAGES_PATH) as Hframe.
  rewrite Hsave in Hframe. simpl in Hframe.
  apply save_ok in Hsave as (a & Ha & ->).
  split; [by destruct chunks_meta|]. split; [done|]. split; [exact Hframe|].
  unfold App.load_index.
  rewrite (load_artifacts _ _ App.FAISS_PATH App.PASSAGES_PATH a
             (VectorIndex.passages emb0)).
  - destruct emb0 as [m i ps]. simpl in *. by rewrite Hmodel, Ha.
  - rewrite lookup_insert_ne by discriminate. apply lookup_insert_eq.
  - apply lookup_insert_eq.
Qed.

(** X11 at the passages of a two-sentence page. *)
Lemma build_index_then_load_witness :
  let chunks_meta :=
    chunk_page_text None 3 (T "gpt2") (T "Alpha bank statement. Thank you.")
      (T "doc.pdf") 1 0 in
  let built := App.build_index_from_chunks (B := ToyApp.backend) ∅ chunks_meta in
  ∃ emb, built.1.2 = ok emb
         ∧ VectorIndex.passages emb = map Chunking.label chunks_meta
         ∧ App.load_index built.2 = ([T "[INFO] Loaded index."], ok emb).
Proof.
  intros chunks_meta built.
  destruct built as [[printed [e|emb]] fs'] eqn:Hbuilt; [by vm_compute in Hbuilt|].
  destruct (build_index_then_load ToyApp.backend ∅ chunks_meta) as [H _].
  destruct (H printed emb fs' Hbuilt) as (_ & Hps & _ & Hload).
  exists emb. done.
Defined.

(* ===================================================================== *)
(** ** Ingestion, continued *)
(* ===================================================================== *)

Section IngestMore.

Import Ingest.
Context {W : World}.

Lemma enumerate_fst {A} (l : list A) i :
  map fst (enumerate i l) = map (λ k, i + Z.of_nat k) (seq 0 (length l)).
Proof.
  revert i. induction l as [|x l IH]; intros i; simpl; [done|].
  rewrite IH, <- seq_shift, map_map. f_equal; [lia|].
  apply map_ext. intros k. lia.
Qed.

Lemma enumerate_snd {A} (l : list A) i : map snd (enumerate i l) = l.
Proof. revert i. induction l as [|x l IH]; intros i; simpl; [done|]. by rewrite IH. Qed.

Lemma enumerate_length {A} (l : list A) i : length (enumerate i l) = length l.
Proof. revert i. induction l as [|x l IH]; intros i; simpl; [done|]. by rewrite IH. Qed.

Lemma pdf_pages_text_shape pdf_path use_selectable_first pages :
  pdf_pages_text pdf_path use_selectable_first = ok pages →
  ∃ texts, pages = enumerate 1 texts ∧ Forall (λ t, Py.strip t = t) texts
           ∧ (use_selectable_first = false → Forall (λ t, t = []) texts).
Proof.
  unfold pdf_pages_text.
  assert (Hfallback : ∀ pages,
    bind (pdf_to_images pdf_path)
      (λ imgs, ok (map (λ p : Z * image, (p.1, [])) (enumerate 1 imgs))) = ok pages →
    ∃ texts, pages = enumerate 1 texts ∧ Forall (λ t, Py.strip t = t) texts
             ∧ Forall (λ t, t = []) texts).
  { intros ps. destruct (pdf_to_images pdf_path) as [e|imgs]; [discriminate|].
    simpl. intros [= <-]. exists (map (λ _, []) imgs). split; [|split].
    - generalize 1. induction imgs as [|x imgs IH]; intros i; simpl; [done|].
      by rewrite IH.
    - apply Forall_forall. intros t Ht.
      by apply list_elem_of_In, in_map_iff in Ht as (? & <- & _).
    - apply Forall_forall. intros t Ht.
      by apply list_elem_of_In, in_map_iff in Ht as (? & <- & _). }
  destruct use_selectable_first.
  - unfold pdf_selectable_text.
    destruct PYMUPDF_AVAILABLE; simpl.
    + destruct (fitz_texts pdf_path) as [texts|]; simpl; [|discriminate].
      destruct (enumerate 1 (map Py.strip texts)) as [|pg sel] eqn:Hsel; simpl.
      * intros H. destruct (Hfallback _ H) as (ts & ? & ? & ?). exists ts. done.
      * intros [= <-]. exists (map Py.strip texts). split; [done|].
        split; [|done]. apply Forall_forall. intros t Ht.
        apply list_elem_of_In, in_map_iff in Ht as (y & <- & _).
        apply strip_idem.
    + intros H. destruct (Hfallback _ H) as (ts & ? & ? & ?). exists ts. done.
  - intros H. destruct (Hfallback _ H) as (ts & ? & ? & ?). exists ts. done.
Qed.

End IngestMore.

(** X12.  The pages [pdf_pages_text] returns are numbered 1, 2, 3, ... in
    order, every page text is trimmed, and without the selectable-text
    path every page text is empty. *)
Theorem pdf_pages_numbered (W : Ingest.World) pdf_path use_selectable_first
    pages :
  Ingest.pdf_pages_text pdf_path use_selectable_first = ok pages →
  map fst pages = map (λ k, Z.of_nat k + 1) (seq 0 (length pages))
  ∧ Forall (λ pg, Py.strip pg.2 = pg.2) pages
  ∧ (use_selectable_first = false → Forall (λ pg, pg.2 = []) pages).
Proof.
  intros H. apply pdf_pages_text_shape in H as (texts & -> & Htrim & Hempty).
  rewrite enumerate_fst, enumerate_length.
  split; [|split].
  - apply map_ext. intros k. lia.
  - apply Forall_forall. intros pg Hpg. rewrite Forall_forall in Htrim.
    apply Htrim. rewrite <- (enumerate_snd texts 1).
    apply list_elem_of_In, in_map, list_elem_of_In, Hpg.
  - intros Hsel. specialize (Hempty Hsel).
    apply Forall_forall. intros pg Hpg. rewrite Forall_forall in Hempty.
    apply Hempty. rewrite <- (enumerate_snd texts 1).
    apply list_elem_of_In, in_map, list_elem_of_In, Hpg.
Qed.

(** X12 at the two-page statement. *)
Lemma pdf_pages_numbered_witness :
  let pages := [(1, T "Alpha bank statement. Balance is five hundred rupees.");
                (2, T "")] in
  map fst pages = map (λ k, Z.of_nat k + 1) (seq 0 (length pages))
  ∧ Forall (λ pg, Py.strip pg.2 = pg.2) pages
  ∧ (true = false → Forall (λ pg, pg.2 = []) pages).
Proof.
  intros pages.
  apply (pdf_pages_numbered ToyWorld.world (T "/in/st.pdf") true pages).
  reflexivity.
Defined.

Section IngestFold.

Import Ingest.
Context {W : World}.
Variable use_selectable_text : bool.
Variable max_tokens_per_chunk overlap_tokens : Z.

Local Abbreviation loop :=
  (ingest_loop use_selectable_text max_tokens_per_chunk overlap_tokens).
Local Abbreviation pages_loop :=
  (ingest_pages max_tokens_per_chunk overlap_tokens).
Local Abbreviation chunk_of_page :=
  (chunk max_tokens_per_chunk overlap_tokens).

Lemma ingest_pages_acc p name images pages acc :
  pages_loop p name images pages acc
  = bind (pages_loop p name images pages []) (λ m, ok (acc ++ m)).
Proof.
  revert images acc. induction pages as [|[page_no txt] pages IH];
    intros images acc; simpl.
  - by rewrite app_nil_r.
  - destruct (_ && _).
    + rewrite IH, (IH images (chunk_of_page txt name page_no)).
      destruct (pages_loop p name images pages []); simpl; [done|].
      by rewrite app_assoc.
    + destruct (match images with None => _ | Some imgs => _ end) as [e|imgs];
        simpl; [done|].
      destruct (nth_error imgs _) as [img|]; simpl; [|done].
      destruct (image_to_text img) as [ocr_text|]; simpl; [|done].
      rewrite IH, (IH (Some imgs) (chunk_of_page ocr_text name page_no)).
      destruct (pages_loop p name (Some imgs) pages []); simpl; [done|].
      by rewrite app_assoc.
Qed.

(** What one existing document adds to the list. *)
Lemma ingest_loop_step p paths printed acc :
  file_exists (abspath p) = true →
  loop (p :: paths) printed acc
  = match loop [p] [] [] with
    | (_, inl e) => (printed, inl e)
    | (_, inr m) => loop paths printed (acc ++ m)
    end.
Proof.
  intros Hex. simpl. rewrite Hex. simpl.
  destruct (bool_decide _).
  - destruct (pdf_pages_text _ _) as [e|pages]; simpl; [done|].
    rewrite ingest_pages_acc.
    destruct (pages_loop _ _ None pages []); simpl; done.
  - destruct (image_open _) as [img|]; simpl; [|done].
    destruct (image_to_text img); simpl; done.
Qed.

Lemma ingest_loop_acc paths printed acc :
  loop paths printed acc
  = (printed ++ (loop paths [] []).1,
     bind (loop paths [] []).2 (λ m, ok (acc ++ m))).
Proof.
  revert printed acc. induction paths as [|p paths IH]; intros printed acc.
  - simpl. by rewrite !app_nil_r.
  - destruct (file_exists (abspath p)) eqn:Hex.
    + rewrite (ingest_loop_step p paths printed acc Hex).
      rewrite (ingest_loop_step p paths [] [] Hex).
      destruct (loop [p] [] []) as [pr [e|m]].
      * simpl. by rewrite app_nil_r.
      * rewrite (app_nil_l m), IH, (IH [] m). simpl.
        destruct (loop paths [] []).2; simpl; [done|]. by rewrite app_assoc.
    + simpl. rewrite Hex. simpl.
      rewrite IH, (IH [warn_not_found (abspath p)] []). simpl.
      rewrite <- app_assoc.
      destruct (loop paths [] []).2; done.
Qed.

Lemma ingest_files_app l1 l2 :
  ingest_files use_selectable_text max_tokens_per_chunk overlap_tokens (l1 ++ l2)
  = match ingest_files use_selectable_text max_tokens_per_chunk overlap_tokens l1 with
    | (p1, inl e) => (p1, inl e)
    | (p1, inr m1) =>
        let r2 := ingest_files use_selectable_text max_tokens_per_chunk
                    overlap_tokens l2 in
        (p1 ++ r2.1, bind r2.2 (λ m2, ok (m1 ++ m2)))
    end.
Proof.
  unfold ingest_files. rewrite ingest_loop_app.
  destruct (loop l1 [] []) as [p1 [e|m1]]; [done|].
  by rewrite ingest_loop_acc.
Qed.

Lemma ingest_files_printed l m :
  (ingest_files use_selectable_text max_tokens_per_chunk overlap_tokens l).2 = ok m →
  (ingest_files use_selectable_text max_tokens_per_chunk overlap_tokens l).1
  = map warn_not_found (filter (λ p, file_exists p = false) (map abspath l)).
Proof.
  unfold ingest_files. revert m. induction l as [|p l IH]; intros m; [done|].
  simpl map. destruct (file_exists (abspath p)) eqn:Hex.
  - rewrite (ingest_loop_step p l [] [] Hex).
    rewrite filter_cons_False by (by rewrite Hex).
    destruct (loop [p] [] []) as [pr [e|m0]]; [discriminate|].
    rewrite ingest_loop_acc. simpl.
    destruct (loop l [] []) as [pr' [e|m']] eqn:Hl; simpl; [discriminate|].
    intros _. by apply (IH m').
  - rewrite filter_cons_True by done.
    simpl. rewrite Hex. simpl. rewrite ingest_loop_acc. simpl.
    destruct (loop l [] []) as [pr' [e|m']] eqn:Hl; simpl; [discriminate|].
    intros _. f_equal. by apply (IH m').
Qed.

End IngestFold.

(** X13.  Ingestion is a fold over the documents: what [ingest_files]
    prints and returns for a batch followed by another is what it prints
    and returns for the first, then, unless the first ended with an
    exception, what it prints and returns for the second, the passages of
    the second appended to those of the first. *)
Theorem ingest_batches_compose (W : Ingest.World) use_selectable_text
    max_tokens_per_chunk overlap_tokens (first second : list text) :
  let ingest := Ingest.ingest_files use_selectable_text max_tokens_per_chunk
                  overlap_tokens in
  ingest (first ++ second)
  = match ingest first with
    | (printed, inl e) => (printed, inl e)
    | (printed, inr passages) =>
        (printed ++ (ingest second).1,
         bind (ingest second).2 (λ more, ok (passages ++ more)))
    end.
Proof. apply ingest_files_app. Qed.

(** X14.  When [ingest_files] returns normally, what it has printed is the
    not-found warning of every missing path, in the order of the input, and
    nothing else. *)
Theorem ingest_prints_missing_paths (W : Ingest.World) use_selectable_text
    max_tokens_per_chunk overlap_tokens (paths : list text) passages :
  let ingest := Ingest.ingest_files use_selectable_text max_tokens_per_chunk
                  overlap_tokens in
  (ingest paths).2 = ok passages →
  (ingest paths).1
  = map Ingest.warn_not_found
      (filter (λ p, Ingest.file_exists p = false) (map Ingest.abspath paths)).
Proof. apply ingest_files_printed. Qed.

(** X14 at a batch with a missing statement between two documents. *)
Lemma ingest_prints_missing_paths_witness :
  (Ingest.ingest_files (W := ToyWorld.world) true 800 150
     [T "/in/st.pdf"; T "/in/gone.pdf"; T "/in/scan.png"]).1
  = [T "[WARN] /in/gone.pdf not found, skipping."].
Proof.
  destruct (Ingest.ingest_files (W := ToyWorld.world) true 800 150
              [T "/in/st.pdf"; T "/in/gone.pdf"; T "/in/scan.png"]).2
    as [e|m] eqn:Hrun; [by vm_compute in Hrun|].
  rewrite (ingest_prints_missing_paths ToyWorld.world true 800 150 _ m Hrun).
  by vm_compute.
Defined.

Section IngestLabels.

Import Ingest.
Context {W : World}.
Variable use_selectable_text : bool.
Variable max_tokens_per_chunk overlap_tokens : Z.

Local Abbreviation loop :=
  (ingest_loop use_selectable_text max_tokens_per_chunk overlap_tokens).
Local Abbreviation pages_loop :=
  (ingest_pages max_tokens_per_chunk overlap_tokens).
Local Abbreviation chunk_of_page :=
  (chunk max_tokens_per_chunk overlap_tokens).

Lemma number_chunks_labelled src pg i (cs : list text) :
  1 ≤ i →
  Forall (λ p, labelled p ∧ source p = src ∧ page p = pg)
    (number_chunks src pg i cs).
Proof.
  revert i. induction cs as [|c cs IH]; intros i Hi; simpl; constructor.
  - unfold labelled. simpl. auto.
  - apply IH. lia.
Qed.

Lemma chunk_labelled txt name page_no :
  Forall (λ p, labelled p ∧ source p = name ∧ page p = page_no)
    (chunk_of_page txt name page_no).
Proof. unfold chunk, chunk_page_text. apply number_chunks_labelled. lia. Qed.

Lemma enumerate_ge {A} (l : list A) i n x : (n, x) ∈ enumerate i l → i ≤ n.
Proof.
  revert i. induction l as [|y l IH]; intros i; simpl.
  - by intros ?%elem_of_nil.
  - intros [[= -> _]|H]%elem_of_cons; [lia|]. apply IH in H. lia.
Qed.

Lemma ingest_pages_labelled (P : passage → Prop) p name images pages acc m :
  (∀ q, labelled q ∧ source q = name ∧ 1 ≤ page q → P q) →
  (∀ n t, (n, t) ∈ pages → 1 ≤ n) →
  Forall P acc →
  pages_loop p name images pages acc = ok m → Forall P m.
Proof.
  intros HP. revert images acc.
  induction pages as [|[page_no txt] pages IH]; intros images acc Hpages Hacc; simpl.
  - by intros [= <-].
  - assert (Hn : 1 ≤ page_no) by (apply (Hpages page_no txt); left).
    assert (Hrest : ∀ n t, (n, t) ∈ pages → 1 ≤ n)
      by (intros n t H; apply (Hpages n t); by right).
    assert (Hchunk : ∀ t, Forall P (acc ++ chunk_of_page t name page_no)).
    { intros t. apply Forall_app. split; [done|].
      eapply Forall_impl; [apply chunk_labelled|].
      intros q (Hl & Hs & Hp). apply HP. rewrite Hp. auto. }
    destruct (_ && _); [by apply IH|].
    destruct (match images with None => _ | Some imgs => _ end) as [e|imgs];
      simpl; [discriminate|].
    destruct (nth_error imgs _) as [img|]; simpl; [|discriminate].
    destruct (image_to_text img) as [ocr_text|]; simpl; [|discriminate].
    by apply IH.
Qed.

Lemma ingest_loop_labelled (paths l : list text) printed acc m :
  let P := λ q : passage,
    labelled q ∧ 1 ≤ page q
    ∧ ∃ path, path ∈ paths ∧ file_exists (abspath path) = true
              ∧ source q = basename (abspath path) in
  (∀ x, x ∈ l → x ∈ paths) → Forall P acc →
  (loop l printed acc).2 = ok m → Forall P m.
Proof.
  intros P. revert printed acc.
  induction l as [|p l IH]; intros printed acc Hl Hacc; simpl.
  - by intros [= <-].
  - assert (Hl' : ∀ x, x ∈ l → x ∈ paths) by (intros x Hx; apply Hl; by right).
    destruct (file_exists (abspath p)) eqn:Hex; simpl; [|by apply IH].
    assert (HP : ∀ q, labelled q ∧ source q = basename (abspath p) ∧ 1 ≤ page q
                      → P q).
    { intros q (Hq & Hs & Hp). split; [done|]. split; [done|].
      exists p. split; [apply Hl; left | done]. }
    destruct (bool_decide _).
    + destruct (pdf_pages_text _ _) as [e|pages] eqn:Hpages; simpl; [discriminate|].
      destruct (pages_loop _ _ None pages acc) as [e|m0] eqn:Hm0; [discriminate|].
      apply IH; [done|].
      apply (ingest_pages_labelled P _ _ _ _ _ _ HP) in Hm0; [done| |done].
      apply pdf_pages_text_shape in Hpages as (texts & -> & _).
      intros n t. apply enumerate_ge.
    + destruct (image_open _) as [img|]; simpl; [|discriminate].
      destruct (image_to_text img) as [txt|]; simpl; [|discriminate].
      apply IH; [done|]. apply Forall_app. split; [done|].
      eapply Forall_impl; [apply chunk_labelled|].
      intros q (Hq & Hs & Hp). apply HP. rewrite Hp. auto with lia.
Qed.

End IngestLabels.

(** X15.  Every passage [ingest_files] returns carries as label the header
    of its own source, page and chunk index followed by a newline and its
    text; its chunk index and its page are at least 1; and its source is
    the base name of one of the input paths that exist. *)
Theorem ingested_passages_labelled (W : Ingest.World) use_selectable_text
    max_tokens_per_chunk overlap_tokens (paths : list text) passages :
  (Ingest.ingest_files use_selectable_text max_tokens_per_chunk overlap_tokens
     paths).2 = ok passages →
  Forall (λ q,
      label q = T "(source:" ++ source q ++ T " page:" ++ Py.str_of_int (page q)
                  ++ T " chunk:" ++ Py.str_of_int (chunk_index q) ++ T ")"
                  ++ ["010"%char] ++ ptext q
      ∧ 1 ≤ chunk_index q ∧ 1 ≤ page q
      ∧ ∃ path, path ∈ paths
                ∧ Ingest.file_exists (Ingest.abspath path) = true
                ∧ source q = Ingest.basename (Ingest.abspath path))
    passages.
Proof.
  intros Hrun.
  pose proof (ingest_loop_labelled use_selectable_text max_tokens_per_chunk
                overlap_tokens paths paths [] [] passages (λ x H, H)
                (List.Forall_nil _) Hrun) as H.
  eapply Forall_impl; [exact H|].
  intros q ((Hlabel & Hidx) & Hpage & Hsrc). auto.
Qed.

(** X15 at the statement and the receipt. *)
Lemma ingested_passages_labelled_witness :
  ∃ passages,
    (Ingest.ingest_files (W := ToyWorld.world) true 800 150
       [T "/in/st.pdf"; T "/in/scan.png"]).2 = ok passages
    ∧ Forall (λ q, 1 ≤ chunk_index q ∧ 1 ≤ page q) passages.
Proof.
  destruct (Ingest.ingest_files (W := ToyWorld.world) true 800 150
              [T "/in/st.pdf"; T "/in/scan.png"]).2
    as [e|m] eqn:Hrun; [by vm_compute in Hrun|].
  exists m. split; [done|].
  pose proof (ingested_passages_labelled ToyWorld.world true 800 150 _ m Hrun) as H.
  eapply Forall_impl; [exact H|]. intros q (_ & ? & ? & _). done.
Defined.

(* ===================================================================== *)
(** ** Merging, continued *)
(* ===================================================================== *)

Section MergeMore.

Import VectorIndex Merge.

Lemma filter_all (P : text → Prop) `{∀ x, Decision (P x)} (l : list text) :
  (∀ x, x ∈ l → P x) → filter P l = l.
Proof.
  induction l as [|x l IH]; intros Hall; [done|].
  rewrite filter_cons_True by (apply Hall; left).
  rewrite IH; [done|]. intros y Hy. apply Hall. by right.
Qed.

Lemma filter_none (P : text → Prop) `{∀ x, Decision (P x)} (l : list text) :
  (∀ x, x ∈ l → ¬ P x) → filter P l = [].
Proof.
  induction l as [|x l IH]; intros Hall; [done|].
  rewrite filter_cons_False by (apply Hall; left).
  apply IH. intros y Hy. apply Hall. by right.
Qed.

Lemma keep_first_nodup_id (l : list text) : NoDup l → keep_first l = l.
Proof.
  induction 1 as [|p l Hp _ IH]; simpl; [done|].
  rewrite IH, filter_all; [done|]. intros x Hx ->. done.
Qed.

Lemma keep_first_app (l1 l2 : list text) :
  keep_first (l1 ++ l2)
  = keep_first l1 ++ filter (λ x, x ∉ l1) (keep_first l2).
Proof.
  induction l1 as [|p l1 IH]; simpl.
  - rewrite filter_all; [done|]. intros x _. apply not_elem_of_nil.
  - rewrite IH, filter_app, list_filter_filter. do 2 f_equal.
    apply list_filter_iff. intros x. rewrite not_elem_of_cons. tauto.
Qed.

Lemma keep_first_length (l : list text) : (length (keep_first l) ≤ length l)%nat.
Proof.
  induction l as [|p l IH]; simpl; [done|].
  pose proof (length_filter (λ x, x ≠ p) (keep_first l)). lia.
Qed.

Lemma merge_passages_app {B : Backend} (e u : t) :
  NoDup (passages e) →
  merge_passages e u
  = passages e ++ filter (λ x, x ∉ passages e) (dedupe (passages u)).
Proof.
  intros Hnd. unfold merge_passages.
  by rewrite !dedupe_keep_first, keep_first_app, keep_first_nodup_id.
Qed.

End MergeMore.

(** X16.  When the existing passages are pairwise different, a merge keeps
    them where they are, so every existing id still names the same passage,
    and appends the uploaded passages that are new, each once, in the order
    of their first occurrence; the merged list is no shorter than the
    existing one and no longer than both together; and uploading passages
    that are all there already changes nothing. *)
Theorem merge_appends_new (B : VectorIndex.Backend) (e u : VectorIndex.t) :
  NoDup (VectorIndex.passages e) →
  Merge.merge_passages e u
  = VectorIndex.passages e
    ++ filter (λ x, x ∉ VectorIndex.passages e)
         (Merge.dedupe (VectorIndex.passages u))
  ∧ (∀ i x, VectorIndex.passages e !! i = Some x →
            Merge.merge_passages e u !! i = Some x)
  ∧ (length (VectorIndex.passages e) ≤ length (Merge.merge_passages e u)
     ≤ length (VectorIndex.passages e) + length (VectorIndex.passages u))%nat
  ∧ ((∀ x, x ∈ VectorIndex.passages u → x ∈ VectorIndex.passages e) →
     Merge.merge_passages e u = VectorIndex.passages e).
Proof.
  intros Hnd. pose proof (merge_passages_app e u Hnd) as Heq.
  split; [exact Heq|]. rewrite Heq. split; [|split].
  - intros i x Hx. by apply lookup_app_l_Some.
  - rewrite length_app.
    pose proof (length_filter (λ x, x ∉ VectorIndex.passages e)
                  (Merge.dedupe (VectorIndex.passages u))) as Hf.
    rewrite dedupe_keep_first in *.
    pose proof (keep_first_length (VectorIndex.passages u)). lia.
  - intros Hsub. rewrite filter_none; [by rewrite app_nil_r|].
    intros x Hx Hnot. apply Hnot, Hsub.
    rewrite dedupe_keep_first in Hx. by apply (keep_first_elem_of _ x).
Qed.

(** X16 at two overlapping pairs of labels. *)
Lemma merge_appends_new_witness :
  let e := VectorIndex.Make (B := Toy.backend) VectorIndex.default_model
             (Some [15; 4]) [T "opening balance"; T "fees"] in
  let u := VectorIndex.Make (B := Toy.backend) VectorIndex.default_model
             (Some [4; 19; 4]) [T "fees"; T "closing balance 500"; T "fees"] in
  Merge.merge_passages e u !! 1%nat = Some (T "fees")
  ∧ (length (Merge.merge_passages e u) ≤ 2 + 3)%nat.
Proof.
  intros e u.
  destruct (merge_appends_new Toy.backend e u) as (_ & Hid & Hlen & _).
  - apply (bool_decide_unpack _). by vm_compute.
  - split; [by apply Hid | apply Hlen].
Defined.

(** X17.  After the upload handler has run on a consistent session, the
    session holds an index, is flagged as built, and [num_passages] is the
    number of passages of that index.  With no existing index, or an
    existing index without passages, the uploaded index becomes the
    current one as it is; otherwise either the session is exactly as
    before (the merged build raised) or it holds a new index of the
    existing model whose passages are the merged passages. *)
Theorem upload_index_outcome (B : VectorIndex.Backend) (ss : Merge.session)
    (u : VectorIndex.t) :
  match Merge.emb ss with
  | Some e => Merge.index_built ss = true
              ∧ Merge.num_passages ss = length (VectorIndex.passages e)
  | None => True
  end →
  let ss' := Merge.upload_index ss u in
  (∃ e', Merge.emb ss' = Some e' ∧ Merge.index_built ss' = true
         ∧ Merge.num_passages ss' = length (VectorIndex.passages e'))
  ∧ (Merge.emb ss = None
     ∨ (∃ e, Merge.emb ss = Some e ∧ VectorIndex.passages e = []) →
     ss' = Merge.Session (Some u) true (length (VectorIndex.passages u)))
  ∧ (∀ e, Merge.emb ss = Some e → VectorIndex.passages e ≠ [] →
       ss' = ss
       ∨ ∃ e', Merge.emb ss' = Some e'
               ∧ VectorIndex.model_name e' = VectorIndex.model_name e
               ∧ VectorIndex.passages e' = Merge.merge_passages e u
               ∧ is_Some (VectorIndex.index e')).
Proof.
  intros Hok ss'. unfold ss', Merge.upload_index.
  destruct (Merge.emb ss) as [e|] eqn:Hemb.
  - destruct (VectorIndex.passages e) as [|p ps] eqn:Hps.
    + simpl. split; [eauto|]. split; [done|]. intros e' [= <-]. by rewrite Hps.
    + simpl length. cbv iota. simpl Nat.eqb. cbv iota.
      destruct (VectorIndex.build _ _) as [[err|[]] new_emb] eqn:Hbuild.
      * split; [exists e; rewrite Hps; by destruct Hok|].
        split; [intros [?|(e' & [= <-] & He')]; congruence|]. by left.
      * apply build_ok in Hbuild as (_ & Hmodel & Hpass & Hidx).
        split; [simpl; eauto|].
        split; [intros [?|(e' & [= <-] & He')]; congruence|].
        intros e' [= <-] _. right. exists new_emb. simpl in *. auto.
  - split; [simpl; eauto|]. split; [done|]. intros e [=].
Qed.

(** X17 at an empty session. *)
Lemma upload_index_outcome_witness :
  ∃ e', Merge.emb (Merge.upload_index (Merge.Session None false 0) Toy.three)
        = Some e'
        ∧ Merge.num_passages
            (Merge.upload_index (Merge.Session None false 0) Toy.three)
          = length (VectorIndex.passages e').
Proof.
  destruct (upload_index_outcome Toy.backend (Merge.Session None false 0)
              Toy.three I) as ((e' & He' & _ & Hn) & _).
  exists e'. done.
Defined.

(* ===================================================================== *)
(** ** The generation client *)
(* ===================================================================== *)

(** X18.  [create_client] raises its environment error exactly when no
    non-empty key is given and the environment holds none either; a
    non-empty key given by the caller is the one handed to the
    client library, whatever the environment holds, and otherwise the key
    of the environment is. *)
Theorem create_client_key (client : Type) (Client : text → option client)
    (environ : gmap text text) (api_key : option text) :
  let env_key := default [] (environ !! T "GENAI_API_KEY") in
  let made k := match Client k with
                | Some c => inr c
                | None => inl GenAI.ClientFailure
                end in
  ((∃ msg, GenAI.create_client client Client environ api_key
           = inl (GenAI.EnvironmentError msg))
   ↔ (api_key = None ∨ api_key = Some []) ∧ env_key = [])
  ∧ (∀ k, api_key = Some k → k ≠ [] →
       GenAI.create_client client Client environ api_key = made k)
  ∧ (api_key = None ∨ api_key = Some [] → env_key ≠ [] →
     GenAI.create_client client Client environ api_key = made env_key).
Proof.
  intros env_key made. unfold GenAI.create_client, GenAI.get_api_key_from_env.
  fold env_key. unfold made. clearbody env_key.
  split; [|split].
  - destruct api_key as [[|c k]|], env_key as [|c' k']; simpl;
      try destruct (Client _);
      (split; [intros [msg H]; try discriminate; auto
              | intros [[?|?] ?]; try congruence; eauto]).
  - intros k -> Hk. by destruct k.
  - intros Hkey Henv. destruct Hkey as [-> | ->]; simpl; by destruct env_key.
Qed.

(** X18 at a caller's key beside a key in the environment. *)
Lemma create_client_key_witness :
  GenAI.create_client text (λ k, Some k)
    {[ T "GENAI_API_KEY" := T "from-env" ]} (Some (T "from-caller"))
  = inr (T "from-caller").
Proof.
  destruct (create_client_key text (λ k, Some k)
              {[ T "GENAI_API_KEY" := T "from-env" ]} (Some (T "from-caller")))
    as (_ & H & _).
  by apply H.
Defined.

(* ===================================================================== *)
(** ** Finding the uploaded index files *)
(* ===================================================================== *)

Section UploadFacts.

Import Upload.

Lemma scan_last path_of (names : list text) i j :
  scan path_of names i j
  = (match last (filter (λ fn, endswith (Ingest.lower fn) (T ".index") = true)
                   names) with
     | Some fn => Some (path_of fn)
     | None => i
     end,
     match last (filter (λ fn, endswith (Ingest.lower fn) (T ".json") = true)
                   names) with
     | Some fn => Some (path_of fn)
     | None => j
     end).
Proof.
  revert i j. induction names as [|fn names IH]; intros i j; [done|].
  change (scan path_of (fn :: names) i j)
    with (scan path_of names
            (if endswith (Ingest.lower fn) (T ".index")
             then Some (path_of fn) else i)
            (if endswith (Ingest.lower fn) (T ".json")
             then Some (path_of fn) else j)).
  rewrite IH. clear IH. f_equal.
  - destruct (endswith (Ingest.lower fn) (T ".index")) eqn:Hfn.
    + rewrite filter_cons_True by done. rewrite last_cons. by destruct (last _).
    + by rewrite filter_cons_False by (by rewrite Hfn).
  - destruct (endswith (Ingest.lower fn) (T ".json")) eqn:Hfn.
    + rewrite filter_cons_True by done. rewrite last_cons. by destruct (last _).
    + by rewrite filter_cons_False by (by rewrite Hfn).
Qed.

End UploadFacts.

(** X19.  Among the uploaded paths the handler takes as index file the
    last one whose lower-cased name ends in ".index" and as passages file
    the last one ending in ".json", and none where there is no such path;
    when the upload is a single ".zip" it takes them in the same way from
    the listing of the extraction directory, joined to that directory. *)
Theorem find_index_files_last (tmp_dir : text) (saved_paths listing : list text) :
  let is_index := λ fn, Upload.endswith (Ingest.lower fn) (T ".index") = true in
  let is_json := λ fn, Upload.endswith (Ingest.lower fn) (T ".json") = true in
  Upload.scan_paths saved_paths
  = (last (filter is_index saved_paths), last (filter is_json saved_paths))
  ∧ Upload.scan_listing tmp_dir listing
    = (Upload.path_join tmp_dir <$> last (filter is_index listing),
       Upload.path_join tmp_dir <$> last (filter is_json listing))
  ∧ Upload.find_index_files tmp_dir saved_paths listing
    = match saved_paths with
      | [z] => if Upload.endswith (Ingest.lower z) (T ".zip")
               then Upload.scan_listing tmp_dir listing
               else Upload.scan_paths saved_paths
      | _ => Upload.scan_paths saved_paths
      end.
Proof.
  intros is_index is_json. split; [|split; [|done]].
  - unfold Upload.scan_paths. rewrite scan_last. fold is_index is_json.
    by destruct (last (filter is_index _)), (last (filter is_json _)).
  - unfold Upload.scan_listing. rewrite scan_last. fold is_index is_json.
    by destruct (last (filter is_index _)), (last (filter is_json _)).
Qed.

(* ===================================================================== *)
(** ** The fallback counter *)
(* ===================================================================== *)

Section FallbackFacts.

Lemma fallback_growth (a b : Z) :
  0 ≤ a → 0 ≤ b →
  Z.max 1 (13 * (a + b) / 10)
  ≤ Z.max 1 (13 * a / 10) + Z.max 1 (13 * b / 10) + 1.
Proof. intros Ha Hb. Z.to_euclidean_division_equations. lia. Qed.

Lemma fallback_of_list (l : list text) :
  l ≠ [] →
  Z.max 1 (13 * Z.of_nat (length (words_of l)) / 10)
  ≤ zsum (map fallback_tokens l) + Z.of_nat (length l) - 1.
Proof.
  induction l as [|x l IH]; [done|]. intros _.
  destruct l as [|y l].
  - rewrite words_of_singleton. simpl. unfold fallback_tokens. lia.
  - specialize (IH ltac:(done)).
    rewrite words_of_cons, length_app, Nat2Z.inj_add.
    pose proof (fallback_growth (Z.of_nat (length (Py.split x)))
                  (Z.of_nat (length (words_of (y :: l)))) ltac:(lia) ltac:(lia)).
    change (zsum (map fallback_tokens (x :: y :: l)))
      with (fallback_tokens x + zsum (map fallback_tokens (y :: l))).
    change (length (x :: y :: l)) with (S (length (y :: l))).
    unfold fallback_tokens at 1. lia.
Qed.

Lemma fallback_sum_length (l : list text) :
  Z.of_nat (length l) ≤ zsum (map fallback_tokens l).
Proof.
  induction l as [|x l IH]; simpl; [done|]. unfold fallback_tokens at 1. lia.
Qed.

Lemma whole_parts max_tokens enc (sentences : list text) ps :
  (∀ s, s ∈ sentences → tokens_length None s enc ≤ max_tokens) →
  Forall (Budget.part_of_input None max_tokens enc sentences) ps →
  (∀ s, s ∈ map part_text ps → s ∈ sentences)
  ∧ map (Budget.part_tokens None enc) ps = map fallback_tokens (map part_text ps).
Proof.
  intros Hshort. induction 1 as [|p ps Hp _ [IH1 IH2]];
    [split; [by intros s ?%elem_of_nil | done]|].
  destruct p as [s|ws]; simpl in Hp.
  - split.
    + intros x [->|Hx]%elem_of_cons; [apply Hp | by apply IH1].
    + simpl. by rewrite IH2.
  - destruct Hp as (_ & s & Hs & Hlong & _). apply Hshort in Hs.
    unfold tokens_length in *. lia.
Qed.

End FallbackFacts.

(** X20.  With the fallback counter and no sentence above [max_tokens],
    a chunk made without overlap is the trimmed join of at most
    [max_tokens] sentences of the input, and the count of the chunk text
    exceeds [max_tokens] by less than the number of sentences joined; so it
    stays below twice [max_tokens]. *)
Theorem fallback_overshoot max_tokens enc (sentences : list text) :
  (∀ s, s ∈ sentences → tokens_length None s enc ≤ max_tokens) →
  ∀ c, c ∈ chunk_sentences_to_chunks None max_tokens enc sentences 0 →
    ∃ g, g ≠ [] ∧ (∀ s, s ∈ g → s ∈ sentences)
         ∧ c = Py.strip (Py.join sp g)
         ∧ Z.of_nat (length g) ≤ max_tokens
         ∧ tokens_length None c enc ≤ max_tokens + Z.of_nat (length g) - 1
         ∧ tokens_length None c enc < 2 * max_tokens.
Proof.
  intros Hshort c Hc. rewrite chunk_sentences_zero in Hc by lia.
  apply (pack_within_budget None max_tokens enc sentences) in Hc.
  - destruct Hc as (ps & Hne & Hps & -> & Hsum).
    destruct (whole_parts max_tokens enc sentences ps Hshort Hps) as [Hin Htok].
    rewrite Htok in Hsum.
    set (g := map part_text ps) in *.
    assert (Hg : g ≠ []) by (by destruct ps).
    pose proof (fallback_sum_length g) as Hlen.
    pose proof (fallback_of_list g Hg) as Hgrow.
    assert (Hcount : tokens_length None (Py.strip (Py.join sp g)) enc
                     = Z.max 1 (13 * Z.of_nat (length (words_of g)) / 10)).
    { simpl. unfold fallback_tokens. by rewrite words_of_chunk. }
    exists g. rewrite Hcount. repeat split; try done; lia.
  - intros s w Hs Hlong. apply Hshort in Hs. lia.
Qed.

(** X20 at four one-word sentences under a budget of four. *)
Lemma fallback_overshoot_witness :
  tokens_length None (T "A. B. C. D.") (T "gpt2") < 2 * 4.
Proof.
  destruct (fallback_overshoot 4 (T "gpt2") (split_into_sentences (T "A. B. C. D."))
              ltac:(intros s Hs; vm_compute in Hs;
                    repeat (apply elem_of_cons in Hs as [->|Hs]; [by vm_compute|]);
                    by apply elem_of_nil in Hs)
              (T "A. B. C. D.") ltac:(vm_compute; left))
    as (g & _ & _ & _ & _ & _ & H).
  exact H.
Defined.

(* ===================================================================== *)
(** ** Digital PDFs *)
(* ===================================================================== *)

Section SelectableFacts.

Import Ingest.
Context {W : World}.
Variable max_tokens_per_chunk overlap_tokens : Z.

Lemma ingest_pages_selectable p name images pages acc :
  Forall (λ pg : Z * text, inked pg.2) pages →
  ingest_pages max_tokens_per_chunk overlap_tokens p name images pages acc
  = ok (acc ++ concat (map (λ pg, chunk max_tokens_per_chunk overlap_tokens
                                    pg.2 name pg.1) pages)).
Proof.
  intros H. revert acc. induction H as [|[n t] pages Ht _ IH]; intros acc; simpl.
  - by rewrite app_nil_r.
  - simpl in Ht.
    assert (Py.truthy t = true) as ->.
    { destruct Ht as (c & Hc & _). destruct t; [by apply elem_of_nil in Hc | done]. }
    assert (Py.truthy (Py.strip t) = true) as ->.
    { destruct Ht as (c & Hc & Hsp). pose proof (strip_nonempty t c Hc Hsp).
      by destruct (Py.strip t). }
    simpl. by rewrite IH, app_assoc.
Qed.

End SelectableFacts.

(** X21.  A PDF in which PyMuPDF finds text on every page is ingested
    from that text alone: [ingest_files] returns the chunks of the trimmed
    pages, in page order and numbered from page 1, and prints nothing,
    whether or not the pages could be rasterized or read by OCR. *)
Theorem digital_pdf_needs_no_ocr (W : Ingest.World) max_tokens_per_chunk
    overlap_tokens (p : text) texts :
  let path := Ingest.abspath p in
  let name := Ingest.basename path in
  Ingest.file_exists path = true →
  Ingest.lower (Ingest.splitext_ext name) = T ".pdf" →
  Ingest.PYMUPDF_AVAILABLE = true →
  Ingest.fitz_texts path = Some texts →
  texts ≠ [] → Forall inked texts →
  Ingest.ingest_files true max_tokens_per_chunk overlap_tokens [p]
  = ([], ok (concat
               (map (λ pg, chunk_page_text Ingest.tiktoken max_tokens_per_chunk
                             (T "gpt2") pg.2 name pg.1 overlap_tokens)
                  (Ingest.enumerate 1 (map Py.strip texts))))).
Proof.
  intros path name Hex Hext Hmu Hfitz Hne Hink.
  unfold Ingest.ingest_files. simpl. fold path. rewrite Hex. simpl. fold name.
  rewrite Hext, bool_decide_eq_true_2 by done.
  unfold Ingest.pdf_pages_text, Ingest.pdf_selectable_text.
  rewrite Hmu. simpl. fold path. rewrite Hfitz. simpl.
  assert (Py.truthy (Ingest.enumerate 1 (map Py.strip texts)) = true) as ->
    by (by destruct texts).
  cbn [bind ok]. rewrite ingest_pages_selectable; [done|].
  apply Forall_forall. intros [n t] Hpg. simpl.
  assert (t ∈ map Py.strip texts) as Ht.
  { rewrite <- (enumerate_snd (map Py.strip texts) 1).
    apply list_elem_of_In. apply (in_map snd _ (n, t)). by apply list_elem_of_In. }
  apply list_elem_of_In, in_map_iff in Ht as (t0 & <- & Ht0).
  apply inked_strip. rewrite Forall_forall in Hink.
  by apply Hink, list_elem_of_In.
Qed.

(** X21 at a two-page digital statement where pdf2image is missing. *)
Lemma digital_pdf_needs_no_ocr_witness :
  Ingest.ingest_files (W := ToyText.world) true 800 150 [T "/in/Digital.PDF"]
  = ([], ok (concat
               (map (λ pg, chunk_page_text None 800 (T "gpt2") pg.2
                             (T "Digital.PDF") pg.1 150)
                  [(1, T "Opening balance 500."); (2, T "Closing balance 750.")]))).
Proof.
  apply (digital_pdf_needs_no_ocr ToyText.world 800 150 (T "/in/Digital.PDF")
           [T " Opening balance 500. "; T "Closing balance 750."]);
    try done.
  repeat constructor.
  - exists "O"%char. split; [right; left | done].
  - exists "C"%char. split; [left | done].
Defined.
